(** * DynamoPaginatedRead: cursor cache, chain replay, prefetch and invalidation

    A shallow embedding of [src/DynamoPaginatedRead/app.js].  The Express
    handlers and the helper functions are written in a small state-and-error
    monad over a [World] that holds the in-process cursor cache (node-cache),
    the table behind the document client and a log of the queries sent to it.
    The store itself is an interface ([Store]); a list-backed instance is used
    for the concrete scenarios. *)

From stdpp Require Import gmap strings list fin_maps.
From Stdlib Require Import ZArith Ascii DecimalString.
From Stdlib Require DecimalZ DecimalPos.

Open Scope Z_scope.

(** ** JavaScript values that reach the handlers

    A field of a parsed JSON body is [None] when the property is missing
    ([undefined] after destructuring) and [Some v] otherwise.  Numbers are the
    integers; arrays and nested objects are folded into [JObj]. *)

Inductive value : Type :=
  | JNull
  | JBool (b : bool)
  | JNum (z : Z)
  | JStr (s : string)
  | JObj.

#[global] Instance value_eq_dec : EqDecision value.
Proof. solve_decision. Defined.

(** [String(n)] for an integer [n] in the range where JavaScript prints plain
    decimal digits. *)
Definition number_to_string (z : Z) : string :=
  NilZero.string_of_int (Z.to_int z).

(** The string a template literal [`${v}`] splices in. *)
Definition js_to_string (v : value) : string :=
  match v with
  | JNull => "null"
  | JBool true => "true"
  | JBool false => "false"
  | JNum z => number_to_string z
  | JStr s => s
  | JObj => "[object Object]"
  end.

(** [!!v] for a value, and for a possibly missing property. *)
Definition truthy (v : value) : bool :=
  match v with
  | JNull => false
  | JBool b => b
  | JNum z => negb (z =? 0)
  | JStr s => negb (String.eqb s "")
  | JObj => true
  end.

Definition truthy_field (f : option value) : bool :=
  match f with
  | None => false
  | Some v => truthy v
  end.

(** [parseInt(q) || d]: [None] stands for [NaN] (missing or non-numeric
    query parameter); [0] is falsy as well. *)
Definition or_default (q : option Z) (d : Z) : Z :=
  match q with
  | None => d
  | Some z => if z =? 0 then d else z
  end.

(** ** Cache keys *)

Definition PREFETCH_PAGES : Z := 3.

(** [`customer_${customerId}_lastEvaluatedKey_${page}_${limit}`] *)
Definition cacheKey (customerId : value) (page limit : Z) : string :=
  "customer_" +:+ js_to_string customerId +:+ "_lastEvaluatedKey_"
    +:+ number_to_string page +:+ "_" +:+ number_to_string limit.

(** [`customer_${customerId}_lastEvaluatedKey_`] *)
Definition cachePrefix (customerId : value) : string :=
  "customer_" +:+ js_to_string customerId +:+ "_lastEvaluatedKey_".

(** [key.startsWith(p)] *)
Definition startsWith (key p : string) : bool := String.prefix p key.

(** Two tests on strings used to tell cache keys apart: [lacks c s] holds
    when the character [c] is nowhere in [s], [occurs p s] when [p] is a
    substring of [s]. *)
Fixpoint lacks (c : Ascii.ascii) (s : string) : bool :=
  match s with
  | EmptyString => true
  | String a s' => negb (Ascii.eqb a c) && lacks c s'
  end.

Fixpoint occurs (p s : string) : bool :=
  String.prefix p s
  || match s with
     | EmptyString => false
     | String _ s' => occurs p s'
     end.

(** The values [!v] holds for. *)
Definition falsy (v : value) : Prop :=
  v = JNull ∨ v = JBool false ∨ v = JNum 0 ∨ v = JStr "".

(** A required property that fails the check of the write endpoint: missing,
    or present with a falsy value. *)
Definition missing_or_falsy (f : option value) : Prop :=
  f = None ∨ ∃ v, f = Some v ∧ falsy v.

(** ** The store behind [docClient]

    [query] is one [QueryCommand] on the customer index (partition key,
    [Limit], [ExclusiveStartKey], descending order); [put_item] is one
    [PutCommand].  [None] means the call rejects. *)

Record Order := {
  CustomerID : value;
  OrderNumber : value;
  OrderValue : value;
  OrderDate : value
}.

Class Store := {
  Item : Type;
  Cursor : Type;
  Table : Type;
  query : Table → value → Z → option Cursor → option (list Item * option Cursor);
  put_item : Table → Order → option Table
}.

(** What a handler can catch: the store rejected a command, a cache
    operation threw, or the document client refused a command whose
    [ExclusiveStartKey] is [null] (it cannot marshal it, so nothing reaches
    the store). *)
Inductive Error := StoreError | CacheUnavailable | InvalidStartKey.

Inductive Outcome (A : Type) : Type :=
  | Ok (a : A)
  | Throw (e : Error).
Arguments Ok {A} a.
Arguments Throw {A} e.

Section Service.
Context `{Store}.

(** One logged [QueryCommand]: customer, limit and start key. *)
Definition Call : Type := value * Z * option Cursor.

(** What the variable [lastEvaluatedKey] can hold: [undefined] (nothing
    looked up, a cache miss, or a result without [LastEvaluatedKey]), [null]
    (what [cache.get] hands back for an entry whose stored value is
    [undefined]) or a key object. *)
Inductive StartKey :=
  | KeyUndefined
  | KeyNull
  | KeyObject (c : Cursor).

(** A result's [LastEvaluatedKey], absent or an object, as such a value. *)
Definition key_of (c : option Cursor) : StartKey :=
  match c with
  | Some c => KeyObject c
  | None => KeyUndefined
  end.

(** The key object a value holds, if any: [undefined] and [null] are both
    falsy. *)
Definition key_value (key : StartKey) : option Cursor :=
  match key with
  | KeyObject c => Some c
  | KeyUndefined | KeyNull => None
  end.

(** [ExclusiveStartKey] as the document client sends it: [undefined] is left
    out, an object is sent, [null] is refused. *)
Definition marshalled (key : StartKey) : option (option Cursor) :=
  match key with
  | KeyUndefined => Some None
  | KeyObject c => Some (Some c)
  | KeyNull => None
  end.

(** The process state.  [cache] is the node-cache instance: a stored
    [undefined] is the entry [Some None].  [cache_up] is false when the cache
    operations throw (always true for the in-process node-cache; expiry of
    entries is not modelled).  [calls] logs the queries in the order they
    were handed to the store.  [exited] is set when an unhandled rejection
    has ended the process; the handlers below are those of a running
    process. *)
Record World := {
  cache : gmap string (option Cursor);
  cache_up : bool;
  table : Table;
  calls : list Call;
  exited : bool
}.

(** Field updates. *)
Definition log_call (w : World) (c : Call) : World :=
  {| cache := cache w; cache_up := cache_up w; table := table w;
     calls := calls w ++ [c]; exited := exited w |}.

Definition with_cache (w : World) (m : gmap string (option Cursor)) : World :=
  {| cache := m; cache_up := cache_up w; table := table w; calls := calls w;
     exited := exited w |}.

Definition with_table (w : World) (t : Table) : World :=
  {| cache := cache w; cache_up := cache_up w; table := t; calls := calls w;
     exited := exited w |}.

(** The process ends: its memory, the cache included, is gone; the table
    and what was sent to it stay. *)
Definition crash (w : World) : World :=
  {| cache := ∅; cache_up := cache_up w; table := table w; calls := calls w;
     exited := true |}.

Definition M (A : Type) : Type := World → Outcome A * World.

Definition ret {A} (a : A) : M A := λ w, (Ok a, w).

Definition bind {A B} (m : M A) (k : A → M B) : M B :=
  λ w, match m w with
       | (Ok a, w') => k a w'
       | (Throw e, w') => (Throw e, w')
       end.

(** [if (c)] on a key that is an object or [undefined]. *)
Definition present (c : option Cursor) : bool :=
  match c with
  | Some _ => true
  | None => false
  end.

End Service.

Notation "'let*' x ':=' m 'in' k" := (bind m (λ x, k))
  (at level 10, x pattern, m at level 100, k at level 200).

Section Operations.
Context `{Store}.

(** *** node-cache *)

(** [cache.get]: [undefined] on a miss, the stored object on a hit, and
    [null] for an entry that was set to [undefined]. *)
Definition cache_get (key : string) : M StartKey :=
  λ w, if cache_up w
       then (Ok match cache w !! key with
                | None => KeyUndefined
                | Some None => KeyNull
                | Some (Some c) => KeyObject c
                end, w)
       else (Throw CacheUnavailable, w).

Definition cache_set (key : string) (v : option Cursor) : M unit :=
  λ w, if cache_up w then (Ok tt, with_cache w (<[key := v]> (cache w)))
       else (Throw CacheUnavailable, w).

Definition cache_keys : M (list string) :=
  λ w, if cache_up w then (Ok (map fst (map_to_list (cache w))), w)
       else (Throw CacheUnavailable, w).

Definition cache_del (keys : list string) : M unit :=
  λ w, if cache_up w then (Ok tt, with_cache w (foldr delete (cache w) keys))
       else (Throw CacheUnavailable, w).

(** *** queryCustomerOrders *)

Definition queryCustomerOrders (customerId : value) (limit : Z)
    (exclusiveStartKey : StartKey) : M (list Item * option Cursor) :=
  λ w, match marshalled exclusiveStartKey with
       | None => (Throw InvalidStartKey, w)
       | Some start =>
           let w' := log_call w (customerId, limit, start) in
           match query (table w) customerId limit start with
           | Some result => (Ok result, w')
           | None => (Throw StoreError, w')
           end
       end.

(** *** getCustomerPageItems

    [page_loop n] is the [while (currentPage <= page)] loop with [n] turns
    left: started at [currentPage = 1] with [n = page] (or [0] when
    [page < 1]), the turns run out exactly when [currentPage <= page] fails.
    After a turn [lastEvaluatedKey] holds the result's key; before the first
    one it holds what the cache gave.  The caller reads the returned key for
    truthiness only. *)

Fixpoint page_loop (n : nat) (customerId : value) (page limit currentPage : Z)
    (items : list Item) (lastEvaluatedKey : StartKey)
    : M (list Item * option Cursor) :=
  match n with
  | O => ret (items, key_value lastEvaluatedKey)
  | S n' =>
      let* result := queryCustomerOrders customerId limit lastEvaluatedKey in
      let items := result.1 in
      let lastEvaluatedKey := result.2 in
      let* _ := cache_set (cacheKey customerId currentPage limit) lastEvaluatedKey in
      if negb (present lastEvaluatedKey) || (currentPage =? page)
      then ret (items, lastEvaluatedKey)
      else page_loop n' customerId page limit (currentPage + 1) items
             (key_of lastEvaluatedKey)
  end.

Definition getCustomerPageItems (customerId : value) (page limit : Z)
    : M (list Item * option Cursor) :=
  let* lastEvaluatedKey :=
    (if 1 <? page then cache_get (cacheKey customerId (page - 1) limit)
     else ret KeyUndefined) in
  page_loop (Z.to_nat page) customerId page limit 1 [] lastEvaluatedKey.

(** *** prefetchNextPages

    [prefetch_loop n] is the [for] loop with [n] turns left
    ([n = PREFETCH_PAGES - i + 1]); it hands back the last key it holds. *)

Fixpoint prefetch_loop (n : nat) (customerId : value) (currentPage limit i : Z)
    (lastEvaluatedKey : option Cursor) : M (option Cursor) :=
  match n with
  | O => ret lastEvaluatedKey
  | S n' =>
      let nextPage := currentPage + i in
      match lastEvaluatedKey with
      | None => ret lastEvaluatedKey
      | Some _ =>
          let* result :=
            queryCustomerOrders customerId limit (key_of lastEvaluatedKey) in
          let* _ := cache_set (cacheKey customerId nextPage limit) result.2 in
          prefetch_loop n' customerId currentPage limit (i + 1) result.2
      end
  end.

Definition prefetchNextPages (customerId : value) (currentPage limit : Z)
    (startKey : option Cursor) : M unit :=
  let* _ := prefetch_loop (Z.to_nat PREFETCH_PAGES) customerId currentPage limit 1 startKey in
  ret tt.

(** *** GET /orders/:customerId

    The handler answers from the result of [getCustomerPageItems].  The
    prefetch is called without [await] before the response is built: the call
    runs up to its first [await], so its first query has been handed to the
    client when [res.json] runs, and the rest of it is a task that runs when
    the answer arrives.  Nobody reads the outcome of that task. *)

Record GetRequest := {
  params_customerId : string;
  query_limit : option Z;
  query_page : option Z
}.

Record PageBody := {
  orders : list Item;
  customerId : value;
  currentPage : Z;
  itemsPerPage : Z;
  hasNextPage : bool;
  totalItems : nat
}.

Inductive GetResponse :=
  | Json200 (body : PageBody)
  | Error500 (error : Error).

(** [prefetchNextPages] from the answer to its first query on: the first
    turn of its loop after the [await], then the remaining turns.  Run in the
    world in which that query has been logged, it ends where
    [prefetchNextPages] run as a whole ends (lemma [prefetch_resumed_whole]). *)
Definition prefetch_resumed (customerId : value) (currentPage limit : Z)
    (startKey : Cursor) : M unit :=
  λ w, match query (table w) customerId limit (Some startKey) with
       | None => (Throw StoreError, w)
       | Some result =>
           (let* _ := cache_set (cacheKey customerId (currentPage + 1) limit) result.2 in
            let* _ := prefetch_loop (Z.to_nat (PREFETCH_PAGES - 1)) customerId
                        currentPage limit 2 result.2 in
            ret tt) w
       end.

(** The call [prefetchNextPages(customerId, page, limit, lastEvaluatedKey)]
    as the handler makes it: the world in which its first query has been
    handed to the client, and the task left pending. *)
Definition prefetch_called (customerId : value) (currentPage limit : Z)
    (startKey : Cursor) (w : World) : option (M unit) * World :=
  (Some (prefetch_resumed customerId currentPage limit startKey),
   log_call w (customerId, limit, Some startKey)).

Definition get_orders (req : GetRequest)
    : World → (GetResponse * option (M unit)) * World :=
  let customerId := JStr (params_customerId req) in
  let limit := or_default (query_limit req) 10 in
  let page := or_default (query_page req) 1 in
  λ w, match getCustomerPageItems customerId page limit w with
       | (Ok (items, lastEvaluatedKey), w') =>
           let '(task, w'') :=
             match lastEvaluatedKey with
             | Some c => prefetch_called customerId page limit c w'
             | None => (None, w')
             end in
           ((Json200 {| orders := items; customerId := customerId;
                        currentPage := page; itemsPerPage := limit;
                        hasNextPage := present lastEvaluatedKey;
                        totalItems := length items |}, task), w'')
       | (Throw error, w') => ((Error500 error, None), w')
       end.

(** Whether a response announces a further page. *)
Definition hasNextPage_of (r : GetResponse) : bool :=
  match r with
  | Json200 b => hasNextPage b
  | Error500 _ => false
  end.

(** A background task run to its end.  Nobody awaits it and no handler is
    attached to its promise: if it rejects, the rejection is unhandled, and
    an unhandled rejection ends the process (the default of the runtime; the
    source installs no [unhandledRejection] handler). *)
Definition run_task (task : option (M unit)) (w : World) : World :=
  match task with
  | Some m =>
      match m w with
      | (Ok _, w') => w'
      | (Throw _, w') => crash w'
      end
  | None => w
  end.

(** One GET request served, its prefetch finished before the next request. *)
Definition serve_get (req : GetRequest) (w : World) : GetResponse * World :=
  let '((res, task), w') := get_orders req w in (res, run_task task w').

(** *** invalidateCustomerCache *)

Definition invalidateCustomerCache (customerId : value) : M unit :=
  let* cacheKeys := cache_keys in
  let customerKeys :=
    List.filter (λ key, startsWith key (cachePrefix customerId)) cacheKeys in
  cache_del customerKeys.

(** *** POST /orders *)

Record PostBody := {
  body_CustomerID : option value;
  body_OrderNumber : option value;
  body_OrderValue : option value;
  body_OrderDate : option value
}.

Inductive PostResponse :=
  | Created201 (order : Order)
  | BadRequest400
  | ServerError500.

Definition docClient_put (item : Order) : M unit :=
  λ w, match put_item (table w) item with
       | Some t => (Ok tt, with_table w t)
       | None => (Throw StoreError, w)
       end.

Definition post_orders (body : PostBody) : World → PostResponse * World :=
  λ w,
  if negb (truthy_field (body_CustomerID body))
     || negb (truthy_field (body_OrderNumber body))
     || negb (truthy_field (body_OrderValue body))
     || negb (truthy_field (body_OrderDate body))
  then (BadRequest400, w)
  else
    let item := {| CustomerID := default JNull (body_CustomerID body);
                   OrderNumber := default JNull (body_OrderNumber body);
                   OrderValue := default JNull (body_OrderValue body);
                   OrderDate := default JNull (body_OrderDate body) |} in
    match (let* _ := docClient_put item in
           invalidateCustomerCache (CustomerID item)) w with
    | (Ok _, w') => (Created201 item, w')
    | (Throw _, w') => (ServerError500, w')
    end.

End Operations.

(** ** A list-backed store

    The table is the list of orders in index order.  A query keeps the
    orders of the customer, resumes after the order whose number is the start
    key, returns at most [limit] of them, and hands back the number of the
    last one as [LastEvaluatedKey] when the limit was reached.  A limit below
    one is rejected, and so is a query that resumes from the key recorded in
    [outage]: a request the store fails, as a throttled or timed-out
    [QueryCommand] is.  A put replaces the order with the same number and
    places the new order first. *)

Module ListStore.

Fixpoint drop_through (k : value) (l : list Order) : list Order :=
  match l with
  | [] => []
  | o :: l' => if decide (OrderNumber o = k) then l' else drop_through k l'
  end.

Record ListTable := {
  rows : list Order;
  outage : option value
}.

Definition list_query (t : ListTable) (customerId : value) (limit : Z)
    (start : option value) : option (list Order * option value) :=
  if limit <? 1 then None
  else if bool_decide (is_Some start ∧ start = outage t) then None
  else
    let partition :=
      List.filter (λ o, bool_decide (CustomerID o = customerId)) (rows t) in
    let rest := match start with
                | None => partition
                | Some k => drop_through k partition
                end in
    let items := take (Z.to_nat limit) rest in
    Some (items,
          if (Z.to_nat limit <=? length rest)%nat
          then OrderNumber <$> last items
          else None).

Definition list_put (t : ListTable) (o : Order) : option ListTable :=
  Some {| rows := o :: List.filter
                         (λ x, negb (bool_decide (OrderNumber x = OrderNumber o)))
                         (rows t);
          outage := outage t |}.

#[export] Instance list_store : Store := {|
  Item := Order;
  Cursor := value;
  Table := ListTable;
  query := list_query;
  put_item := list_put
|}.

(** The order numbered [i] of customer [c]. *)
Definition order (c : string) (i : nat) : Order :=
  {| CustomerID := JStr c; OrderNumber := JNum (Z.of_nat i);
     OrderValue := JNum 100; OrderDate := JStr "2024-01-01" |}.

(** A healthy table holding orders [1..n] of customer [c]. *)
Definition orders_of (c : string) (n : nat) : ListTable :=
  {| rows := order c <$> seq 1 n; outage := None |}.

(** A freshly started process: empty cache, nothing sent yet. *)
Definition empty_world (t : ListTable) : World :=
  {| cache := ∅; cache_up := true; table := t; calls := []; exited := false |}.

Definition page_request (c : string) (page limit : Z) : GetRequest :=
  {| params_customerId := c; query_limit := Some limit; query_page := Some page |}.

(** Orders [from .. from + count - 1] of customer [c]. *)
Definition numbered (c : string) (from count : nat) : list Order :=
  order c <$> seq from count.

(** What a response shows of the page: its items and [hasNextPage]. *)
Definition page_of (r : GetResponse) : option (list Order * bool) :=
  match r with
  | Json200 b => Some (orders b, hasNextPage b)
  | Error500 _ => None
  end.

(** *** The scenario: customer C1 holds 25 orders, pages of 10

    Page 1 is requested on a fresh process and its prefetch finishes. *)
Definition C1 : value := JStr "C1".
Definition started : World := empty_world (orders_of "C1" 25).
Definition after_page1 := serve_get (page_request "C1" 1 10) started.

(** The same with a cold cache for page 2: the entries left by page 1 have
    expired when page 2 is requested; page 3 follows on what page 2 and its
    prefetch left. *)
Definition page2_cold := serve_get (page_request "C1" 2 10) (with_cache after_page1.2 ∅).
Definition page3_next := serve_get (page_request "C1" 3 10) page2_cold.2.

(** A fresh process on a table of 20 orders: two full pages of 10. *)
Definition started20 : World := empty_world (orders_of "C1" 20).

(** Page 2 requested first, on the fresh process, and then once more. *)
Definition after_cold_page2 := serve_get (page_request "C1" 2 10) started.
Definition second_page2 := getCustomerPageItems C1 2 10 after_cold_page2.2.

(** A table of 45 orders whose queries fail when they resume from order 30. *)
Definition flaky_world : World :=
  empty_world {| rows := numbered "C1" 1 45; outage := Some (JNum 30) |}.

(** A cache that holds one cursor for customer [A] and one for the customer
    named [A_lastEvaluatedKey]. *)
Definition two_customers : World :=
  {| cache := {[ cacheKey (JStr "A") 1 10 := Some (JNum 10);
                 cacheKey (JStr "A_lastEvaluatedKey") 1 10 := Some (JNum 20);
                 cacheKey (JStr "B") 1 10 := Some (JNum 30) ]};
     cache_up := true; table := orders_of "A" 25; calls := []; exited := false |}.

(** Two write payloads: a complete one, and one whose order value is zero. *)
Definition new_order : PostBody :=
  {| body_CustomerID := Some (JStr "C1"); body_OrderNumber := Some (JNum 26);
     body_OrderValue := Some (JNum 250); body_OrderDate := Some (JStr "2024-02-01") |}.

Definition free_order : PostBody :=
  {| body_CustomerID := Some (JStr "C1"); body_OrderNumber := Some (JNum 26);
     body_OrderValue := Some (JNum 0); body_OrderDate := Some (JStr "2024-02-01") |}.

End ListStore.

(** ** Replaying the chain without a cache

    The reference the cached read is compared with: [chain_page c p] is page
    [p] (counted from 1) of the walk that starts at cursor [c] and hands each
    page's next-cursor to the following fetch; [replay_from more c] fetches
    from [c] and moves on while pages remain to go and the partition is not
    exhausted.  Neither touches a cache. *)

Section Replay.
Context `{Store}.

Fixpoint chain_page (t : Table) (k : value) (s : Z) (c : option Cursor) (p : nat)
    : option (list Item * option Cursor) :=
  match p with
  | O => None
  | S p' =>
      match query t k s c with
      | None => None
      | Some (items, next) =>
          match p', next with
          | O, _ => Some (items, next)
          | S _, Some _ => chain_page t k s next p'
          | S _, None => None
          end
      end
  end.

Fixpoint replay_from (t : Table) (k : value) (s : Z) (more : nat) (c : option Cursor)
    : option (list Item * option Cursor) :=
  match query t k s c with
  | None => None
  | Some (items, next) =>
      match more, next with
      | S more', Some _ => replay_from t k s more' next
      | _, _ => Some (items, next)
      end
  end.

(** Page [pageNumber] by sequential replay from page 1, no cache involved. *)
Definition replay (t : Table) (k : value) (s : Z) (pageNumber : Z)
    : option (list Item * option Cursor) :=
  replay_from t k s (Z.to_nat (pageNumber - 1)) None.

(** The partition of [k] has exactly [L] pages of size [s], the last one
    holding [items]. *)
Definition last_page (t : Table) (k : value) (s : Z) (L : nat) (items : list Item) : Prop :=
  chain_page t k s None L = Some (items, None).

(** The cache-free outcome as the handler sees it. *)
Definition as_outcome {A} (r : option A) : Outcome A :=
  match r with
  | Some a => Ok a
  | None => Throw StoreError
  end.

(** A query that carries the customer and the limit of the request. *)
Definition for_request (k : value) (s : Z) (c : Call) : Prop := c.1 = (k, s).

(** A run of queries for [k] and [s] that starts from cursor [c]: each query
    resumes from the next-cursor the one before it returned, and a query is
    followed by another only if it succeeded with a next-cursor present. *)
Inductive fetch_chain (t : Table) (k : value) (s : Z)
    : option Cursor → list Call → Prop :=
  | chain_nil c : fetch_chain t k s c []
  | chain_one c : fetch_chain t k s (Some c) [(k, s, Some c)]
  | chain_cons c items c' call l :
      query t k s (Some c) = Some (items, Some c') →
      fetch_chain t k s (Some c') (call :: l) →
      fetch_chain t k s (Some c) ((k, s, Some c) :: call :: l).

End Replay.

(** ** Properties of the read path *)

Section ReadPath.
Context `{Store}.

Lemma query_run k s c w :
  queryCustomerOrders k s (key_of c) w =
  match query (table w) k s c with
  | Some r => (Ok r, log_call w (k, s, c))
  | None => (Throw StoreError, log_call w (k, s, c))
  end.
Proof. now destruct c. Qed.

(** A [null] start key is refused before anything is sent. *)
Lemma query_null k s w :
  queryCustomerOrders k s KeyNull w = (Throw InvalidStartKey, w).
Proof. reflexivity. Qed.

(** Every value of [lastEvaluatedKey] is [null] or a result's key. *)
Lemma start_key_cases (key : StartKey) : key = KeyNull ∨ ∃ c, key = key_of c.
Proof.
  destruct key as [| |c]; [right; now exists None | now left | right; now exists (Some c)].
Qed.

(** What [cache.get] hands back when the entry holds a key object. *)
Lemma cache_get_object key c w :
  cache_up w = true →
  mjoin (cache w !! key) = Some c →
  cache_get key w = (Ok (key_of (Some c)), w).
Proof.
  intros Hup Hhit. unfold cache_get. rewrite Hup.
  destruct (cache w !! key) as [[c'|]|]; try discriminate Hhit.
  now injection Hhit as ->.
Qed.

(** And on a miss. *)
Lemma cache_get_miss key w :
  cache_up w = true →
  cache w !! key = None →
  cache_get key w = (Ok (key_of None), w).
Proof. intros Hup Hmiss. unfold cache_get. now rewrite Hup, Hmiss. Qed.

Lemma cache_set_up key v w :
  cache_up w = true →
  cache_set key v w = (Ok tt, with_cache w (<[key := v]> (cache w))).
Proof. intros Hup. unfold cache_set. now rewrite Hup. Qed.

Lemma cache_set_down key v w :
  cache_up w = false → cache_set key v w = (Throw CacheUnavailable, w).
Proof. intros Hup. unfold cache_set. now rewrite Hup. Qed.

(** One turn of the [while] loop with the cache available. *)
Lemma page_loop_turn n k page s cp items lek w :
  cache_up w = true →
  page_loop (S n) k page s cp items (key_of lek) w =
  match query (table w) k s lek with
  | None => (Throw StoreError, log_call w (k, s, lek))
  | Some r =>
      let w' := with_cache (log_call w (k, s, lek))
                           (<[cacheKey k cp s := r.2]> (cache w)) in
      if negb (present r.2) || (cp =? page) then (Ok (r.1, r.2), w')
      else page_loop n k page s (cp + 1) r.1 (key_of r.2) w'
  end.
Proof.
  intros Hup. cbn [page_loop]. unfold bind at 1. rewrite query_run.
  destruct (query (table w) k s lek) as [r|]; [|reflexivity].
  unfold bind at 1. rewrite cache_set_up by exact Hup.
  cbv zeta. now destruct (negb (present r.2) || (cp =? page)).
Qed.

(** From any turn on, the loop returns what the cache-free walk returns from
    the cursor it holds. *)
Lemma page_loop_replay n k page s cp items lek w :
  cache_up w = true →
  page = cp + Z.of_nat n →
  (page_loop (S n) k page s cp items (key_of lek) w).1
  = as_outcome (replay_from (table w) k s n lek).
Proof.
  revert cp items lek w.
  induction n as [|n IH]; intros cp items lek w Hup Hpage;
    rewrite page_loop_turn by exact Hup; cbn [replay_from].
  - destruct (query (table w) k s lek) as [[its next]|]; [|reflexivity].
    cbn. replace (cp =? page) with true by (symmetry; apply Z.eqb_eq; lia).
    rewrite orb_true_r. reflexivity.
  - destruct (query (table w) k s lek) as [[its next]|]; [|reflexivity].
    cbn [fst snd].
    replace (cp =? page) with false by (symmetry; apply Z.eqb_neq; lia).
    rewrite orb_false_r.
    destruct next as [c|]; cbn [present negb]; [|reflexivity].
    rewrite IH; [reflexivity | exact Hup | lia].
Qed.

(** A read that finds no entry for the previous page (or asks for page 1)
    returns exactly the cache-free replay. *)
Lemma cold_read_is_replay k page s w :
  cache_up w = true →
  1 ≤ page →
  (page = 1 ∨ cache w !! cacheKey k (page - 1) s = None) →
  (getCustomerPageItems k page s w).1 = as_outcome (replay (table w) k s page).
Proof.
  intros Hup Hpage Hcold. unfold getCustomerPageItems, replay, bind.
  assert (Hstart :
    (if 1 <? page then cache_get (cacheKey k (page - 1) s) else ret KeyUndefined) w
    = (Ok (key_of None), w)).
  { destruct (1 <? page) eqn:Hlt; [|reflexivity].
    destruct Hcold as [-> | Hmiss]; [discriminate Hlt | now apply cache_get_miss]. }
  rewrite Hstart.
  replace (Z.to_nat page) with (S (Z.to_nat (page - 1))) by lia.
  apply page_loop_replay; [exact Hup | lia].
Qed.

(** A walk that meets the partition's last page before it reaches the
    requested page stops there: it returns that page and has sent one query
    per page walked. *)
Lemma page_loop_exhausts L : ∀ n k page s cp items0 lek w items,
  cache_up w = true →
  (L ≤ n)%nat →
  cp + Z.of_nat L - 1 ≤ page →
  chain_page (table w) k s lek L = Some (items, None) →
  ∃ w' new,
    page_loop n k page s cp items0 (key_of lek) w = (Ok (items, None), w')
    ∧ calls w' = calls w ++ new ∧ length new = L.
Proof.
  induction L as [|L IH]; intros n k page s cp items0 lek w items Hup Hn Hcp Hchain;
    [discriminate Hchain|].
  destruct n as [|n]; [lia|].
  rewrite page_loop_turn by exact Hup.
  cbn [chain_page] in Hchain.
  destruct (query (table w) k s lek) as [[its next]|]; [|discriminate Hchain].
  cbn [fst snd]. destruct L as [|L].
  - injection Hchain as -> ->. cbn [present negb orb].
    eexists _, [_]. split; [reflexivity|]. split; reflexivity.
  - destruct next as [c|]; [|discriminate Hchain].
    cbn [present negb orb].
    replace (cp =? page) with false by (symmetry; apply Z.eqb_neq; lia).
    destruct (IH n k page s (cp + 1) its (Some c)
                (with_cache (log_call w (k, s, lek))
                   (<[cacheKey k cp s := Some c]> (cache w))) items)
      as (w' & new & Hrun & Hcalls & Hlen);
      [exact Hup | lia | lia | exact Hchain |].
    exists w', ((k, s, lek) :: new). split; [exact Hrun|].
    rewrite Hcalls. cbn [calls with_cache log_call length].
    rewrite <- app_assoc. split; [reflexivity | now rewrite Hlen].
Qed.

(** *** Prefetch *)

(** One turn of the [for] loop that still holds a key. *)
Lemma prefetch_loop_turn n k page s i c w :
  prefetch_loop (S n) k page s i (Some c) w =
  match query (table w) k s (Some c) with
  | None => (Throw StoreError, log_call w (k, s, Some c))
  | Some r =>
      if cache_up w
      then prefetch_loop n k page s (i + 1) r.2
             (with_cache (log_call w (k, s, Some c))
                (<[cacheKey k (page + i) s := r.2]> (cache w)))
      else (Throw CacheUnavailable, log_call w (k, s, Some c))
  end.
Proof.
  cbn [prefetch_loop]. unfold bind at 1. rewrite query_run.
  destruct (query (table w) k s (Some c)) as [r|]; [|reflexivity].
  unfold bind at 1, cache_set. cbn [cache_up log_call].
  now destruct (cache_up w).
Qed.

(** A loop that holds no key sends nothing. *)
Lemma prefetch_loop_done n k page s i w :
  prefetch_loop n k page s i None w = (Ok None, w).
Proof. now destruct n. Qed.

(** The queries of a prefetch form a chain of at most as many links as the
    loop has turns. *)
Lemma prefetch_loop_calls n : ∀ k page s i lek w,
  ∃ new,
    calls (prefetch_loop n k page s i lek w).2 = calls w ++ new
    ∧ (length new ≤ n)%nat
    ∧ fetch_chain (table w) k s lek new.
Proof.
  induction n as [|n IH]; intros k page s i lek w.
  - exists []. cbn. rewrite app_nil_r. repeat split; [lia | constructor].
  - destruct lek as [c|].
    2:{ exists []. rewrite prefetch_loop_done. cbn. rewrite app_nil_r.
        repeat split; [lia | constructor]. }
    rewrite prefetch_loop_turn.
    destruct (query (table w) k s (Some c)) as [[its next]|] eqn:Hq.
    2:{ exists [(k, s, Some c)]. cbn. repeat split; [lia | constructor]. }
    destruct (cache_up w).
    2:{ exists [(k, s, Some c)]. cbn. repeat split; [lia | constructor]. }
    cbn [snd].
    destruct (IH k page s (i + 1) next
                (with_cache (log_call w (k, s, Some c))
                   (<[cacheKey k (page + i) s := next]> (cache w))))
      as (new & Hcalls & Hlen & Hchain).
    exists ((k, s, Some c) :: new). rewrite Hcalls.
    cbn [calls with_cache log_call length table] in *.
    rewrite <- app_assoc. repeat split; [lia|].
    destruct new as [|call l]; [constructor|].
    inversion Hchain; subst; econstructor; eauto.
Qed.

(** Running [j + m] turns is running [j] turns and then [m] more from the
    key and the world the first [j] left. *)
Lemma prefetch_loop_split j : ∀ m k page s i lek w,
  prefetch_loop (j + m) k page s i lek w =
  match prefetch_loop j k page s i lek w with
  | (Ok lek', w') => prefetch_loop m k page s (i + Z.of_nat j) lek' w'
  | (Throw e, w') => (Throw e, w')
  end.
Proof.
  induction j as [|j IH]; intros m k page s i lek w.
  - cbn. now rewrite Z.add_0_r.
  - destruct lek as [c|].
    + cbn [Nat.add]. rewrite !prefetch_loop_turn.
      destruct (query (table w) k s (Some c)) as [r|]; [|reflexivity].
      destruct (cache_up w); [|reflexivity].
      rewrite IH. replace (i + 1 + Z.of_nat j) with (i + Z.of_nat (S j)) by lia.
      reflexivity.
    + now rewrite !prefetch_loop_done.
Qed.

(** X15.  A read that finds a cursor for the previous page does not stop
    after one fetch: it walks on from that cursor for up to [page] turns. *)
Lemma warm_read_walks_on k page s w c :
  cache_up w = true →
  1 < page →
  mjoin (cache w !! cacheKey k (page - 1) s) = Some c →
  (getCustomerPageItems k page s w).1
  = as_outcome (replay_from (table w) k s (Z.to_nat (page - 1)) (Some c)).
Proof.
  intros Hup Hpage Hhit. unfold getCustomerPageItems, bind.
  replace (1 <? page) with true by (symmetry; apply Z.ltb_lt; lia).
  rewrite (cache_get_object _ c w Hup Hhit).
  replace (Z.to_nat page) with (S (Z.to_nat (page - 1))) by lia.
  apply page_loop_replay; [exact Hup | lia].
Qed.

End ReadPath.

(** ** Claims about the read path, for every store *)

Section ReadClaims.
Context `{Store}.

(** In a chain, a query that is followed by another one has succeeded and
    returned a next-cursor. *)
Lemma fetch_chain_followed t k s c l :
  fetch_chain t k s c l →
  ∀ pre call post, l = pre ++ call :: post → post ≠ [] →
    ∃ items c', query t k s call.2 = Some (items, Some c').
Proof.
  induction 1 as [c|c|c items c' call0 l Hq Hchain IH]; intros pre call post Heq Hpost.
  - now destruct pre.
  - destruct pre as [|x pre]; [|now destruct pre].
    injection Heq as _ <-. now destruct Hpost.
  - destruct pre as [|x pre].
    + injection Heq as <- _. eauto.
    + injection Heq as _ Heq. eapply IH; eauto.
Qed.

Lemma bind_ret_world {A} (m : M A) (w : World) :
  (bind m (λ _, ret tt) w).2 = (m w).2.
Proof. unfold bind, ret. now destruct (m w) as [[a|e] w']. Qed.

(** C5 (prefetch bound).  Whatever the arguments and the state, one run of
    [prefetchNextPages] appends at most [PREFETCH_PAGES] queries to the log,
    all for the given customer and limit and chained from the start key; a
    query is followed by a further one only if it succeeded and returned a
    next-cursor, so nothing is sent after an exhausted or a failed fetch. *)
Theorem prefetch_bound k page s startKey w :
  ∃ new,
    calls (prefetchNextPages k page s startKey w).2 = calls w ++ new
    ∧ Z.of_nat (length new) ≤ PREFETCH_PAGES
    ∧ fetch_chain (table w) k s startKey new
    ∧ ∀ pre call post, new = pre ++ call :: post → post ≠ [] →
        ∃ items c', query (table w) k s call.2 = Some (items, Some c').
Proof.
  unfold prefetchNextPages. rewrite bind_ret_world.
  destruct (prefetch_loop_calls (Z.to_nat PREFETCH_PAGES) k page s 1 startKey w)
    as (new & Hcalls & Hlen & Hchain).
  exists new. split; [exact Hcalls|]. split; [unfold PREFETCH_PAGES in *; lia|].
  split; [exact Hchain|]. now apply fetch_chain_followed with (c := startKey).
Qed.

(** The pending part of a prefetch call, run where its first query has
    been logged, ends as [prefetchNextPages] run as a whole does. *)
Lemma prefetch_resumed_whole k page s c w :
  prefetch_resumed k page s c (log_call w (k, s, Some c))
  = prefetchNextPages k page s (Some c) w.
Proof.
  unfold prefetch_resumed, prefetchNextPages.
  change (Z.to_nat PREFETCH_PAGES) with (S (Z.to_nat (PREFETCH_PAGES - 1))).
  unfold bind at 3. rewrite prefetch_loop_turn. cbn [table log_call].
  destruct (query (table w) k s (Some c)) as [r|]; [|reflexivity].
  unfold bind at 1, cache_set. cbn [cache_up cache log_call].
  destruct (cache_up w); reflexivity.
Qed.

(** A request served with its prefetch: the response of [get_orders], and
    the world [prefetchNextPages] leaves, or the end of the process when it
    rejects. *)
Lemma serve_get_prefetch req w items c w1 :
  let k := JStr (params_customerId req) in
  let s := or_default (query_limit req) 10 in
  let page := or_default (query_page req) 1 in
  getCustomerPageItems k page s w = (Ok (items, Some c), w1) →
  serve_get req w =
    (Json200 {| orders := items; customerId := k; currentPage := page;
                itemsPerPage := s; hasNextPage := true;
                totalItems := length items |},
     match prefetchNextPages k page s (Some c) w1 with
     | (Ok _, w') => w'
     | (Throw _, w') => crash w'
     end).
Proof.
  intros k s page Hget. unfold serve_get, get_orders. fold k s page. rewrite Hget.
  cbn [prefetch_called present run_task]. now rewrite prefetch_resumed_whole.
Qed.

(** C10 (past-the-end request, amended).  When the walk from the start of
    the partition reaches its last answer at page [L], the requested page
    number is larger than [L] and the cache holds no entry for the page
    before the requested one, the request does not fail: it sends exactly
    [L] queries, answers with the items of that [L]-th answer, whatever they
    are, and reports that no further page exists; no prefetch is started. *)
Theorem past_the_end_returns_last_page req w (L : nat) items :
  let k := JStr (params_customerId req) in
  let s := or_default (query_limit req) 10 in
  let page := or_default (query_page req) 1 in
  cache_up w = true →
  last_page (table w) k s L items →
  Z.of_nat L < page →
  cache w !! cacheKey k (page - 1) s = None →
  ∃ w' new,
    get_orders req w =
      ((Json200 {| orders := items; customerId := k; currentPage := page;
                   itemsPerPage := s; hasNextPage := false;
                   totalItems := length items |}, None), w')
    ∧ calls w' = calls w ++ new ∧ length new = L.
Proof.
  intros k s page Hup Hlast Hpage Hcold.
  destruct (page_loop_exhausts L (Z.to_nat page) k page s 1 [] None w items)
    as (w' & new & Hrun & Hcalls & Hlen); [exact Hup | lia | lia | exact Hlast |].
  exists w', new. split; [|now split].
  unfold get_orders. fold k s page. unfold getCustomerPageItems, bind.
  replace (1 <? page) with true by (symmetry; apply Z.ltb_lt; unfold last_page in Hlast;
                                    destruct L; [discriminate Hlast | lia]).
  rewrite cache_get_miss by assumption. rewrite Hrun. reflexivity.
Qed.

End ReadClaims.

(** ** Cache keys as strings *)

Section Keys.

Lemma prefix_nil s : String.prefix "" s = true.
Proof. now destruct s. Qed.

Lemma append_cons a x y : String a x +:+ y = String a (x +:+ y).
Proof. reflexivity. Qed.

Lemma append_nil y : "" +:+ y = y.
Proof. reflexivity. Qed.

Lemma prefix_cons a x b y :
  String.prefix (String a x) (String b y)
  = if Ascii.ascii_dec a b then String.prefix x y else false.
Proof. reflexivity. Qed.

Lemma prefix_app_same a x y : String.prefix (a +:+ x) (a +:+ y) = String.prefix x y.
Proof.
  induction a as [|c a IH]; [reflexivity|].
  rewrite !append_cons, prefix_cons. now destruct (Ascii.ascii_dec c c).
Qed.

Lemma prefix_app_refl x y : String.prefix x (x +:+ y) = true.
Proof.
  induction x as [|c x IH]; [apply prefix_nil|].
  rewrite append_cons, prefix_cons. now destruct (Ascii.ascii_dec c c).
Qed.

Lemma prefix_app_l x r : ∀ s, String.prefix (x +:+ r) s = true → String.prefix x s = true.
Proof.
  induction x as [|c x IH]; intros s; [intros _; apply prefix_nil|].
  destruct s as [|b s]; [discriminate|].
  rewrite append_cons, !prefix_cons. destruct (Ascii.ascii_dec c b); [apply IH | discriminate].
Qed.

Lemma lacks_app c x y : lacks c (x +:+ y) = lacks c x && lacks c y.
Proof.
  induction x as [|a x IH]; [reflexivity|].
  rewrite append_cons. cbn [lacks]. rewrite IH. now rewrite andb_assoc.
Qed.

(** Decimal numerals hold digits and a sign only. *)
Lemma lacks_uint d : lacks "l"%char (NilEmpty.string_of_uint d) = true.
Proof. induction d; cbn; auto. Qed.

Lemma lacks_number z : lacks "l"%char (number_to_string z) = true.
Proof.
  unfold number_to_string.
  destruct (Z.to_int z) as [d|d]; cbn [NilZero.string_of_int];
    destruct d; try reflexivity; cbn; apply lacks_uint.
Qed.

(** A string that starts with [a ++ p ++ r] holds [p] somewhere. *)
Lemma prefix_app_occurs a p r : ∀ s,
  String.prefix (a +:+ (p +:+ r)) s = true → occurs p s = true.
Proof.
  induction a as [|c a IH]; intros s Hs.
  - rewrite append_nil in Hs. apply prefix_app_l in Hs.
    destruct s; cbn [occurs]; now rewrite Hs.
  - destruct s as [|b s]; [discriminate|].
    rewrite append_cons, prefix_cons in Hs.
    destruct (Ascii.ascii_dec c b); [|discriminate].
    cbn [occurs]. rewrite (IH s Hs). apply orb_true_r.
Qed.

Lemma lacks_head_l n : lacks "l"%char n = true → String.prefix "l" n = false.
Proof.
  destruct n as [|a n]; [reflexivity|]. cbn [lacks]. rewrite prefix_cons.
  destruct (Ascii.ascii_dec "l"%char a) as [<-|]; [discriminate | reflexivity].
Qed.

Lemma lacks_occurs n : lacks "l"%char n = true → occurs "_l" n = false.
Proof.
  induction n as [|a n IH]; [reflexivity|].
  cbn [lacks occurs]. intros [_ Hn]%andb_prop. rewrite (IH Hn), orb_false_r.
  rewrite prefix_cons. destruct (Ascii.ascii_dec "_"%char a); [|reflexivity].
  now apply lacks_head_l.
Qed.

(** After the leading underscore of the marker, a key tail made of the
    marker and numerals never holds the marker again. *)
Lemma no_second_marker a n :
  lacks "l"%char n = true →
  String.prefix (a +:+ "_lastEvaluatedKey_") ("lastEvaluatedKey_" +:+ n) = false.
Proof.
  intros Hn. apply not_true_is_false. intros Hp.
  apply (prefix_app_occurs a "_l" "astEvaluatedKey_") in Hp.
  rewrite !append_cons, append_nil in Hp. cbn [occurs] in Hp.
  rewrite !prefix_cons in Hp. cbn in Hp.
  rewrite (lacks_head_l n Hn), (lacks_occurs n Hn) in Hp. discriminate.
Qed.

(** A non-empty customer part [b] continues the marker only by spelling it
    out itself. *)
Lemma marker_in_customer b n : b ≠ "" →
  String.prefix "_lastEvaluatedKey_" (b +:+ ("_lastEvaluatedKey_" +:+ n))
  = String.prefix "_lastEvaluatedKey_" (b +:+ "_").
Proof.
  intros Hb. destruct b as [|c b]; [done|]. clear Hb.
  rewrite !(append_cons _ b), !prefix_cons.
  destruct (Ascii.ascii_dec _ c) as [<-|]; [|reflexivity].
  do 17 (destruct b as [|c b];
    [ rewrite ?append_nil, ?append_cons; reflexivity
    | rewrite !(append_cons _ b), !prefix_cons;
      destruct (Ascii.ascii_dec _ c) as [<-|]; [|reflexivity] ]).
  now rewrite !prefix_nil.
Qed.

Lemma prefix_marker_customer a : ∀ b n,
  lacks "l"%char n = true →
  String.prefix (a +:+ "_lastEvaluatedKey_") (b +:+ ("_lastEvaluatedKey_" +:+ n))
  = bool_decide (b = a)
    || String.prefix (a +:+ "_lastEvaluatedKey_") (b +:+ "_").
Proof.
  induction a as [|c a IH]; intros b n Hn.
  - rewrite append_nil. destruct b as [|d b].
    + rewrite append_nil. now rewrite prefix_app_refl.
    + rewrite bool_decide_eq_false_2 by discriminate.
      now apply marker_in_customer.
  - destruct b as [|d b].
    + rewrite bool_decide_eq_false_2 by discriminate.
      rewrite !append_nil.
      change ("_lastEvaluatedKey_" +:+ n) with (String "_" ("lastEvaluatedKey_" +:+ n)).
      rewrite append_cons, !prefix_cons.
      destruct (Ascii.ascii_dec c "_"%char); [|reflexivity].
      rewrite no_second_marker by exact Hn.
      now destruct a.
    + rewrite (append_cons c a), !(append_cons d b), !prefix_cons.
      destruct (Ascii.ascii_dec c d) as [<-|Hne].
      * rewrite IH by exact Hn. f_equal. apply bool_decide_ext. split; congruence.
      * rewrite bool_decide_eq_false_2 by congruence. reflexivity.
Qed.

(** Every key of a customer starts with that customer's prefix. *)
Lemma own_key_startsWith k n s : startsWith (cacheKey k n s) (cachePrefix k) = true.
Proof.
  unfold startsWith, cacheKey, cachePrefix.
  rewrite !prefix_app_same. apply prefix_app_refl.
Qed.

(** The keys of customer [k'] that the prefix of customer [k] catches. *)
Lemma startsWith_cacheKey k k' n s :
  startsWith (cacheKey k' n s) (cachePrefix k)
  = bool_decide (js_to_string k' = js_to_string k)
    || String.prefix (js_to_string k +:+ "_lastEvaluatedKey_") (js_to_string k' +:+ "_").
Proof.
  unfold startsWith, cacheKey, cachePrefix. rewrite prefix_app_same.
  apply prefix_marker_customer.
  rewrite lacks_app, lacks_number. cbn [andb]. rewrite append_cons, append_nil.
  cbn [lacks]. now rewrite lacks_number.
Qed.

End Keys.

(** ** Invalidation and the write endpoint, for every store *)

Section WritePath.
Context `{Store}.

(** The keys [invalidateCustomerCache] hands to [cache.del]. *)
Lemma customer_keys_elem (m : gmap string (option Cursor)) (p key : string) :
  key ∈ List.filter (λ key, startsWith key p) (map fst (map_to_list m))
  ↔ startsWith key p = true ∧ is_Some (m !! key).
Proof.
  rewrite list_elem_of_In, filter_In, in_map_iff. split.
  - intros [[[key' v] [Hkey Hin]] Hs]. cbn in Hkey. subst key'.
    apply list_elem_of_In, elem_of_map_to_list in Hin. eauto.
  - intros [Hs [v Hv]]. split; [|exact Hs].
    exists (key, v). split; [reflexivity|].
    now apply list_elem_of_In, elem_of_map_to_list.
Qed.

(** With the cache available, invalidation succeeds and empties exactly the
    keys that start with the customer's prefix. *)
Lemma invalidate_lookup k w :
  cache_up w = true →
  ∃ w',
    invalidateCustomerCache k w = (Ok tt, w')
    ∧ table w' = table w ∧ calls w' = calls w ∧ cache_up w' = true
    ∧ ∀ key, cache w' !! key
             = if startsWith key (cachePrefix k) then None else cache w !! key.
Proof.
  intros Hup. unfold invalidateCustomerCache, bind, cache_keys, cache_del.
  rewrite Hup. cbv beta iota. rewrite Hup.
  eexists. split; [reflexivity|]. cbn [table calls cache_up cache with_cache].
  repeat split; [exact Hup|]. intros key.
  destruct (startsWith key (cachePrefix k)) eqn:Hs.
  - destruct (cache w !! key) as [v|] eqn:Hv.
    + apply lookup_foldr_delete, customer_keys_elem. eauto.
    + rewrite lookup_foldr_delete_not_elem_of; [exact Hv|].
      rewrite customer_keys_elem, Hv. intros [_ [? ?]]. discriminate.
  - apply lookup_foldr_delete_not_elem_of.
    rewrite customer_keys_elem, Hs. intros [? _]. discriminate.
Qed.

(** With the cache down, invalidation throws and changes nothing. *)
Lemma invalidate_down k w :
  cache_up w = false → invalidateCustomerCache k w = (Throw CacheUnavailable, w).
Proof.
  intros Hup. unfold invalidateCustomerCache, bind, cache_keys. now rewrite Hup.
Qed.

(** C7 (invalidation, amended).  With the cache available, invalidating
    customer [k] succeeds, removes every entry of [k] for all page numbers and
    limits, and leaves alone every entry whose key does not start with the
    prefix of [k].  The entries of another customer [k'] are removed as well
    exactly when [k'] reads like [k] or [k'] followed by an underscore starts
    with [k] followed by the marker; otherwise they are unchanged. *)
Theorem invalidate_footprint k w :
  cache_up w = true →
  ∃ w',
    invalidateCustomerCache k w = (Ok tt, w')
    ∧ (∀ n s, cache w' !! cacheKey k n s = None)
    ∧ (∀ key, startsWith key (cachePrefix k) = false →
              cache w' !! key = cache w !! key)
    ∧ (∀ k' n s,
         cache w' !! cacheKey k' n s
         = if bool_decide (js_to_string k' = js_to_string k)
              || String.prefix (js_to_string k +:+ "_lastEvaluatedKey_")
                               (js_to_string k' +:+ "_")
           then None
           else cache w !! cacheKey k' n s).
Proof.
  intros Hup. destruct (invalidate_lookup k w Hup) as (w' & Hrun & _ & _ & _ & Hlook).
  exists w'. split; [exact Hrun|]. repeat split.
  - intros n s. now rewrite Hlook, own_key_startsWith.
  - intros key Hs. now rewrite Hlook, Hs.
  - intros k' n s. now rewrite Hlook, startsWith_cacheKey.
Qed.

Lemma truthy_false v : truthy v = false ↔ falsy v.
Proof.
  unfold falsy. destruct v as [|b|z|s|]; cbn; split.
  - auto.
  - auto.
  - intros ->. auto.
  - intros [?|[?|[?|?]]]; congruence.
  - intros Hz%negb_false_iff%Z.eqb_eq. subst. auto.
  - intros [?|[?|[Hz|?]]]; try discriminate. now injection Hz as ->.
  - intros Hs%negb_false_iff%String.eqb_eq. subst. auto.
  - intros [?|[?|[?|Hs]]]; try discriminate. now injection Hs as ->.
  - discriminate.
  - intros [?|[?|[?|?]]]; discriminate.
Qed.

Lemma truthy_field_false f : truthy_field f = false ↔ missing_or_falsy f.
Proof.
  unfold missing_or_falsy. destruct f as [v|]; cbn.
  - rewrite truthy_false. split; [eauto|].
    intros [?|[v' [[= <-] Hv]]]; [discriminate | exact Hv].
  - split; auto.
Qed.

(** The handler past the validation, when all four properties are truthy. *)
Lemma post_orders_valid c n v d w :
  truthy c = true → truthy n = true → truthy v = true → truthy d = true →
  let item := {| CustomerID := c; OrderNumber := n; OrderValue := v; OrderDate := d |} in
  post_orders {| body_CustomerID := Some c; body_OrderNumber := Some n;
                 body_OrderValue := Some v; body_OrderDate := Some d |} w
  = match put_item (table w) item with
    | Some t =>
        match invalidateCustomerCache c (with_table w t) with
        | (Ok _, w') => (Created201 item, w')
        | (Throw _, w') => (ServerError500, w')
        end
    | None => (ServerError500, w)
    end.
Proof.
  intros Hc Hn Hv Hd item. unfold post_orders. cbn [body_CustomerID body_OrderNumber
    body_OrderValue body_OrderDate truthy_field default from_option id].
  rewrite Hc, Hn, Hv, Hd.
  cbn [negb orb]. fold item. unfold bind, docClient_put.
  now destruct (put_item (table w) item).
Qed.

(** C8 (write endpoint, amended).  The request is rejected with 400 exactly
    when one of the four required properties is missing or falsy ([null],
    [false], [0] or the empty string), and a rejected request changes nothing.
    When the four are truthy, a put that succeeds with the cache available
    yields 201 with the record built from the four properties, the table the
    put produced and no cache entry left for that customer; a put that fails
    yields 500 and changes nothing. *)
Theorem post_orders_validation body w :
  ((post_orders body w).1 = BadRequest400
   ↔ missing_or_falsy (body_CustomerID body)
     ∨ missing_or_falsy (body_OrderNumber body)
     ∨ missing_or_falsy (body_OrderValue body)
     ∨ missing_or_falsy (body_OrderDate body))
  ∧ ((post_orders body w).1 = BadRequest400 → (post_orders body w).2 = w)
  ∧ ∀ c n v d,
      body = {| body_CustomerID := Some c; body_OrderNumber := Some n;
                body_OrderValue := Some v; body_OrderDate := Some d |} →
      truthy c = true → truthy n = true → truthy v = true → truthy d = true →
      let item := {| CustomerID := c; OrderNumber := n;
                     OrderValue := v; OrderDate := d |} in
      (∀ t, put_item (table w) item = Some t → cache_up w = true →
            ∃ w', post_orders body w = (Created201 item, w')
                  ∧ table w' = t
                  ∧ ∀ p s, cache w' !! cacheKey c p s = None)
      ∧ (put_item (table w) item = None → post_orders body w = (ServerError500, w)).
Proof.
  assert (Hcheck :
    negb (truthy_field (body_CustomerID body))
    || negb (truthy_field (body_OrderNumber body))
    || negb (truthy_field (body_OrderValue body))
    || negb (truthy_field (body_OrderDate body)) = true
    ↔ missing_or_falsy (body_CustomerID body)
      ∨ missing_or_falsy (body_OrderNumber body)
      ∨ missing_or_falsy (body_OrderValue body)
      ∨ missing_or_falsy (body_OrderDate body)).
  { rewrite !orb_true_iff, !negb_true_iff, !truthy_field_false. tauto. }
  split; [|split].
  - rewrite <- Hcheck. unfold post_orders.
    destruct (_ || _ || _ || _); [tauto|].
    split; [|discriminate]. unfold bind.
    destruct (docClient_put _ w) as [[[]|e] w1]; [|discriminate].
    destruct (invalidateCustomerCache _ w1) as [[[]|e] w2]; discriminate.
  - unfold post_orders. destruct (_ || _ || _ || _); [reflexivity|].
    unfold bind. destruct (docClient_put _ w) as [[[]|e] w1]; [|discriminate].
    destruct (invalidateCustomerCache _ w1) as [[[]|e] w2]; discriminate.
  - intros c n v d -> Hc Hn Hv Hd item.
    rewrite (post_orders_valid c n v d w Hc Hn Hv Hd). fold item. split.
    + intros t -> Hup.
      destruct (invalidate_lookup c (with_table w t) Hup)
        as (w' & -> & Htable & _ & _ & Hlook).
      exists w'. split; [reflexivity|]. split; [exact Htable|].
      intros p s. now rewrite Hlook, own_key_startsWith.
    + now intros ->.
Qed.

End WritePath.

(** ** The scenario on the list-backed store *)

Module Scenario.
Import ListStore.

(** C4 (three-page scenario).  Page 1 on a fresh process returns orders
    1-10 with a next page.  Page 2 on a cold cache replays page 1 (queries
    from the start and from cursor 10), returns orders 11-20 with a next
    page, caches cursors 10 and 20 under pages 1 and 2, and its prefetch
    records the end of the partition under page 3.  Page 3 then finds cursor
    20 under page 2, sends one query and returns orders 21-25 with no next
    page. *)
Theorem three_pages_cold_page2 :
  page_of after_page1.1 = Some (numbered "C1" 1 10, true)
  ∧ page_of page2_cold.1 = Some (numbered "C1" 11 10, true)
  ∧ calls page2_cold.2
    = calls after_page1.2
      ++ [(C1, 10, None); (C1, 10, Some (JNum 10)); (C1, 10, Some (JNum 20))]
  ∧ cache page2_cold.2 !! cacheKey C1 1 10 = Some (Some (JNum 10))
  ∧ cache page2_cold.2 !! cacheKey C1 2 10 = Some (Some (JNum 20))
  ∧ cache page2_cold.2 !! cacheKey C1 3 10 = Some None
  ∧ page_of page3_next.1 = Some (numbered "C1" 21 5, false)
  ∧ calls page3_next.2 = calls page2_cold.2 ++ [(C1, 10, Some (JNum 20))].
Proof. repeat split; vm_compute; reflexivity. Qed.

(** C1 (chain correctness).  After page 1 has been served, the read of page
    2 returns orders 21-25, while the cache-free replay of page 2 returns
    orders 11-20. *)
Theorem warm_read_differs_from_replay :
  (getCustomerPageItems C1 2 10 after_page1.2).1 = Ok (numbered "C1" 21 5, None)
  ∧ as_outcome (replay (table after_page1.2) C1 10 2)
    = Ok (numbered "C1" 11 10, Some (JNum 20)).
Proof. split; vm_compute; reflexivity. Qed.

(** C2 (cache-entry invariant).  The same read stores under page 1 the
    cursor that page 2 produces, and under page 2 the end of the partition
    that page 3 produces; page 1 produces cursor 10 and page 2 cursor 20. *)
Theorem warm_read_stores_wrong_cursors :
  let w := (getCustomerPageItems C1 2 10 after_page1.2).2 in
  cache w !! cacheKey C1 1 10 = Some (Some (JNum 20))
  ∧ snd <$> chain_page (table w) C1 10 None 1 = Some (Some (JNum 10))
  ∧ cache w !! cacheKey C1 2 10 = Some None
  ∧ snd <$> chain_page (table w) C1 10 None 2 = Some (Some (JNum 20)).
Proof. repeat split; vm_compute; reflexivity. Qed.

(** C3 (warm read).  Page 2 is read on a fresh process and its prefetch
    finishes, so the cursor of page 1 is cached; reading page 2 again sends
    two queries, the second of them for the page after the requested one. *)
Theorem second_read_sends_two_queries :
  mjoin (cache after_cold_page2.2 !! cacheKey C1 1 10) = Some (JNum 10)
  ∧ page_of after_cold_page2.1 = Some (numbered "C1" 11 10, true)
  ∧ calls second_page2.2
    = calls after_cold_page2.2 ++ [(C1, 10, Some (JNum 10)); (C1, 10, Some (JNum 20))]
  ∧ second_page2.1 = Ok (numbered "C1" 21 5, None).
Proof. repeat split; vm_compute; reflexivity. Qed.

(** Page 2 on a fresh process replays page 1 and returns orders 11-20. *)
Example cold_page2 :
  page_of after_cold_page2.1 = Some (numbered "C1" 11 10, true)
  ∧ length (calls after_cold_page2.2) = 3%nat.
Proof. split; vm_compute; reflexivity. Qed.

(** C7, as stated, fails: invalidating customer [A] also removes the entry
    of the customer named [A_lastEvaluatedKey]. *)
Lemma invalidate_hits_other_customer :
  JStr "A_lastEvaluatedKey" ≠ JStr "A"
  ∧ cache two_customers !! cacheKey (JStr "A_lastEvaluatedKey") 1 10
    = Some (Some (JNum 20))
  ∧ cache (invalidateCustomerCache (JStr "A") two_customers).2
      !! cacheKey (JStr "A_lastEvaluatedKey") 1 10 = None.
Proof. repeat split; [discriminate | vm_compute; reflexivity ..]. Qed.

(** C8, as stated, fails: a payload that holds all four properties, the
    order value being zero, is rejected. *)
Lemma zero_value_is_rejected :
  (post_orders free_order started).1 = BadRequest400
  ∧ ¬ (body_CustomerID free_order = None ∨ body_OrderNumber free_order = None
       ∨ body_OrderValue free_order = None ∨ body_OrderDate free_order = None).
Proof. split; [vm_compute; reflexivity | intros [?|[?|[?|?]]]; discriminate]. Qed.

(** C6 (prefetch failure).  Page 1 of the flaky table: the caller gets
    orders 1-10; the prefetch completes two steps, which cache cursors 20 and
    30 under pages 2 and 3, and its third query fails.  Nothing catches the
    rejection: the process has ended and the entries of the completed steps
    are gone with it. *)
Theorem prefetch_failure_ends_process :
  let w1 := (getCustomerPageItems C1 1 10 flaky_world).2 in
  let w2 := (prefetch_loop 2 C1 1 10 1 (Some (JNum 10)) w1).2 in
  page_of (serve_get (page_request "C1" 1 10) flaky_world).1
  = Some (numbered "C1" 1 10, true)
  ∧ (prefetch_loop 2 C1 1 10 1 (Some (JNum 10)) w1).1 = Ok (Some (JNum 30))
  ∧ cache w2 !! cacheKey C1 2 10 = Some (Some (JNum 20))
  ∧ cache w2 !! cacheKey C1 3 10 = Some (Some (JNum 30))
  ∧ (prefetchNextPages C1 1 10 (Some (JNum 10)) w1).1 = Throw StoreError
  ∧ exited (serve_get (page_request "C1" 1 10) flaky_world).2 = true
  ∧ cache (serve_get (page_request "C1" 1 10) flaky_world).2 !! cacheKey C1 2 10 = None
  ∧ cache (serve_get (page_request "C1" 1 10) flaky_world).2 !! cacheKey C1 3 10 = None.
Proof. repeat split; vm_compute; reflexivity. Qed.

(** C10, as stated, fails: with 20 orders and pages of 10 the store hands
    back a key after the second full page, so the walk for page 5 goes on to
    a third, empty answer and returns that empty page. *)
Lemma past_the_end_returns_empty_page :
  page_of (get_orders (page_request "C1" 5 10) started20).1.1 = Some ([], false)
  ∧ length (calls (get_orders (page_request "C1" 5 10) started20).2) = 3%nat
  ∧ replay (table started20) C1 10 2 = Some (numbered "C1" 11 10, Some (JNum 20)).
Proof. repeat split; vm_compute; reflexivity. Qed.

End Scenario.

(** ** The general statements at concrete inputs *)

Module Witnesses.
Import ListStore.

(** The prefetch after page 1 of the scenario sends two queries. *)
Lemma prefetch_bound_witness :
  ∃ new,
    calls (prefetchNextPages C1 1 10 (Some (JNum 10)) started).2 = calls started ++ new
    ∧ Z.of_nat (length new) ≤ PREFETCH_PAGES
    ∧ new = [(C1, 10, Some (JNum 10)); (C1, 10, Some (JNum 20))].
Proof.
  destruct (prefetch_bound (H := list_store) C1 1 10 (Some (JNum 10)) started)
    as (new & Hcalls & Hlen & _ & _).
  exists new. split; [exact Hcalls|]. split; [exact Hlen|].
  apply (app_inv_head (calls started)). rewrite <- Hcalls.
  vm_compute. reflexivity.
Defined.

(** Invalidating customer [A]: the entry of [A] goes, that of [B] stays. *)
Lemma invalidate_footprint_witness :
  cache_up two_customers = true
  ∧ ∃ w',
      invalidateCustomerCache (JStr "A") two_customers = (Ok tt, w')
      ∧ cache w' !! cacheKey (JStr "A") 1 10 = None
      ∧ cache w' !! cacheKey (JStr "B") 1 10 = Some (Some (JNum 30))
      ∧ cache w' !! cacheKey (JStr "A_lastEvaluatedKey") 1 10 = None.
Proof.
  split; [reflexivity|].
  destruct (invalidate_footprint (H := list_store) (JStr "A") two_customers eq_refl)
    as (w' & Hrun & Hown & _ & Hother).
  exists w'. split; [exact Hrun|]. split; [apply Hown|].
  split; rewrite Hother; vm_compute; reflexivity.
Defined.

(** The complete payload on the scenario table is stored and answered 201. *)
Lemma post_orders_validation_witness :
  ∃ w',
    post_orders new_order started
    = (Created201 {| CustomerID := JStr "C1"; OrderNumber := JNum 26;
                     OrderValue := JNum 250; OrderDate := JStr "2024-02-01" |}, w')
    ∧ length (rows (table w')) = 26%nat
    ∧ cache w' !! cacheKey C1 1 10 = None.
Proof.
  destruct (post_orders_validation (H := list_store) new_order started) as (_ & _ & Hvalid).
  destruct (Hvalid (JStr "C1") (JNum 26) (JNum 250) (JStr "2024-02-01")
              eq_refl eq_refl eq_refl eq_refl eq_refl) as [Hput _].
  destruct (Hput _ eq_refl eq_refl) as (w' & Hrun & Htable & Hcache).
  exists w'. split; [exact Hrun|]. split; [now rewrite Htable | apply Hcache].
Defined.

(** Page 7 of the scenario on a fresh process: three queries, orders 21-25. *)
Lemma past_the_end_witness :
  cache_up started = true
  ∧ last_page (table started) C1 10 3 (numbered "C1" 21 5)
  ∧ Z.of_nat 3 < 7
  ∧ cache started !! cacheKey C1 (7 - 1) 10 = None
  ∧ ∃ w' new,
      get_orders (page_request "C1" 7 10) started =
        ((Json200 {| orders := numbered "C1" 21 5; customerId := C1;
                     currentPage := 7; itemsPerPage := 10; hasNextPage := false;
                     totalItems := 5 |}, None), w')
      ∧ calls w' = calls started ++ new ∧ length new = 3%nat.
Proof.
  assert (H1 : cache_up started = true) by reflexivity.
  assert (H2 : last_page (table started) C1 10 3 (numbered "C1" 21 5))
    by (vm_compute; reflexivity).
  assert (H3 : Z.of_nat 3 < 7) by lia.
  assert (H4 : cache started !! cacheKey C1 (7 - 1) 10 = None)
    by (vm_compute; reflexivity).
  repeat (split; [assumption|]).
  exact (past_the_end_returns_last_page (H := list_store) (page_request "C1" 7 10) started 3
           (numbered "C1" 21 5) H1 H2 H3 H4).
Defined.

End Witnesses.

(** ** Cache keys tell page specifications apart *)

Section KeyInjectivity.

Lemma append_assoc x y z : (x +:+ y) +:+ z = x +:+ (y +:+ z).
Proof.
  induction x as [|c x IH]; [reflexivity|]. rewrite !append_cons. now rewrite IH.
Qed.

Lemma length_append x y :
  String.length (x +:+ y) = (String.length x + String.length y)%nat.
Proof.
  induction x as [|c x IH]; [reflexivity|]. rewrite append_cons. cbn. now rewrite IH.
Qed.

Lemma append_inj_r z : ∀ x y, x +:+ z = y +:+ z → x = y.
Proof.
  induction x as [|c x IH]; intros [|d y] Heq; [reflexivity | | |].
  - apply (f_equal String.length) in Heq.
    rewrite append_nil, append_cons in Heq. cbn in Heq. rewrite length_append in Heq. lia.
  - apply (f_equal String.length) in Heq.
    rewrite append_nil, append_cons in Heq. cbn in Heq. rewrite length_append in Heq. lia.
  - rewrite !append_cons in Heq. injection Heq as -> Heq. now rewrite (IH y Heq).
Qed.

Lemma lacks_underscore_uint d : lacks "_"%char (NilEmpty.string_of_uint d) = true.
Proof. induction d; cbn; auto. Qed.

Lemma lacks_underscore_number z : lacks "_"%char (number_to_string z) = true.
Proof.
  unfold number_to_string.
  destruct (Z.to_int z) as [d|d]; cbn [NilZero.string_of_int];
    destruct d; try reflexivity; cbn; apply lacks_underscore_uint.
Qed.

(** Two strings cut at an underscore that is the last one of each agree on
    both sides of the cut. *)
Lemma split_last_underscore u v : ∀ x y,
  lacks "_"%char u = true → lacks "_"%char v = true →
  x +:+ ("_" +:+ u) = y +:+ ("_" +:+ v) → x = y ∧ u = v.
Proof.
  induction x as [|c x IH]; intros [|d y] Hu Hv Heq.
  - rewrite !append_nil, !append_cons, !append_nil in Heq. now injection Heq as ->.
  - rewrite !append_nil, !append_cons, !append_nil in Heq. injection Heq as <- Heq.
    rewrite Heq, lacks_app in Hu. cbn in Hu. now rewrite andb_false_r in Hu.
  - rewrite !append_nil, !append_cons, !append_nil in Heq. injection Heq as -> Heq.
    rewrite <- Heq, lacks_app in Hv. cbn in Hv. now rewrite andb_false_r in Hv.
  - rewrite !(append_cons _ _ (_ +:+ _)) in Heq. injection Heq as -> Heq.
    destruct (IH y Hu Hv Heq) as [-> ->]. now split.
Qed.

Lemma number_to_string_inj a b : number_to_string a = number_to_string b → a = b.
Proof.
  unfold number_to_string. intros Heq. apply DecimalZ.to_int_inj.
  assert (Hnn : ∀ z, Z.to_int z ≠ Decimal.Pos Decimal.Nil
                     ∧ Z.to_int z ≠ Decimal.Neg Decimal.Nil).
  { intros [|p|p]; cbn; split; try discriminate;
      intros [= Hp]; now apply DecimalPos.Unsigned.to_uint_nonnil in Hp. }
  apply (f_equal NilZero.int_of_string) in Heq.
  rewrite !NilZero.isi in Heq by apply Hnn. now injection Heq.
Qed.

Lemma cacheKey_eq_inv k n s k' n' s' :
  cacheKey k n s = cacheKey k' n' s' →
  js_to_string k = js_to_string k' ∧ n = n' ∧ s = s'.
Proof.
  unfold cacheKey. intros Heq.
  rewrite <- !(append_assoc _ _ ("_" +:+ _)) in Heq.
  apply split_last_underscore in Heq as [Heq Hs]; try apply lacks_underscore_number.
  change "_lastEvaluatedKey_" with ("_lastEvaluatedKey" +:+ "_") in Heq.
  rewrite !(append_assoc "_lastEvaluatedKey" "_") in Heq.
  rewrite <- !(append_assoc _ "_lastEvaluatedKey" ("_" +:+ _)) in Heq.
  rewrite <- !(append_assoc "customer_" _ ("_" +:+ _)) in Heq.
  apply split_last_underscore in Heq as [Heq Hn]; try apply lacks_underscore_number.
  rewrite <- !(append_assoc "customer_") in Heq.
  apply append_inj_r in Heq. apply String.app_inj in Heq.
  repeat split; [exact Heq | now apply number_to_string_inj ..].
Qed.

Lemma cacheKey_page_ne k s p q : p ≠ q → cacheKey k p s ≠ cacheKey k q s.
Proof. intros Hne Heq. apply cacheKey_eq_inv in Heq as (_ & Hp & _). contradiction. Qed.

(** X1.  Two cache keys are equal exactly when the customer renders to the
    same string and the page number and the limit are the same: entries for
    different pages, limits or customers never share a key. *)
Theorem cacheKey_inj k n s k' n' s' :
  cacheKey k n s = cacheKey k' n' s'
  ↔ js_to_string k = js_to_string k' ∧ n = n' ∧ s = s'.
Proof.
  split; [apply cacheKey_eq_inv|].
  intros (Hk & -> & ->). unfold cacheKey. now rewrite Hk.
Qed.

End KeyInjectivity.

(** ** What a read and a prefetch change, for every store *)

Section Frames.
Context `{Store}.

(** One turn of the [while] loop, whatever the state of the cache. *)
Lemma page_loop_step n k page s cp items lek w :
  page_loop (S n) k page s cp items (key_of lek) w =
  match query (table w) k s lek with
  | None => (Throw StoreError, log_call w (k, s, lek))
  | Some r =>
      if cache_up w
      then
        let w' := with_cache (log_call w (k, s, lek))
                             (<[cacheKey k cp s := r.2]> (cache w)) in
        if negb (present r.2) || (cp =? page) then (Ok (r.1, r.2), w')
        else page_loop n k page s (cp + 1) r.1 (key_of r.2) w'
      else (Throw CacheUnavailable, log_call w (k, s, lek))
  end.
Proof.
  destruct (cache_up w) eqn:Hup; [now apply page_loop_turn|].
  cbn [page_loop]. unfold bind at 1. rewrite query_run.
  destruct (query (table w) k s lek) as [r|]; [|reflexivity].
  unfold bind at 1. now rewrite cache_set_down by exact Hup.
Qed.

(** What [n] turns started at page [cp] leave behind: the table and the
    availability of the cache as they were, at most [n] further queries, and
    a cache that differs at most on the keys of pages [cp .. cp + n - 1],
    none of which is removed. *)
Lemma page_loop_frame n : ∀ k page s cp items lek w,
  let w' := (page_loop n k page s cp items lek w).2 in
  table w' = table w
  ∧ cache_up w' = cache_up w
  ∧ (∃ new, calls w' = calls w ++ new ∧ (length new ≤ n)%nat
            ∧ Forall (for_request k s) new)
  ∧ (∀ key, (∀ p, cp ≤ p < cp + Z.of_nat n → key ≠ cacheKey k p s) →
            cache w' !! key = cache w !! key)
  ∧ (∀ key, is_Some (cache w !! key) → is_Some (cache w' !! key)).
Proof.
  induction n as [|n IH]; intros k page s cp items lek w.
  - cbn. split; [reflexivity|]. split; [reflexivity|]. split; [|auto].
    exists []. rewrite app_nil_r. split; [reflexivity|]. split; [cbn; lia | constructor].
  - cbv zeta. destruct (start_key_cases lek) as [-> | [lek' ->]].
    { cbn [page_loop]. unfold bind at 1. rewrite query_null. cbn [snd].
      split; [reflexivity|]. split; [reflexivity|]. split; [|auto].
      exists []. rewrite app_nil_r. split; [reflexivity|]. split; [cbn; lia | constructor]. }
    rename lek' into lek. rewrite page_loop_step.
    assert (Hone : ∃ new, calls (log_call w (k, s, lek)) = calls w ++ new
                          ∧ (length new ≤ S n)%nat ∧ Forall (for_request k s) new).
    { exists [(k, s, lek)]. split; [reflexivity|]. split; [cbn; lia|].
      now repeat constructor. }
    destruct (query (table w) k s lek) as [[its next]|];
      [|cbn [snd log_call table cache_up cache]; auto 6].
    destruct (cache_up w) eqn:Hup;
      [|cbn [snd log_call table cache_up cache]; rewrite Hup; auto 6].
    cbn [fst snd].
    set (w1 := with_cache (log_call w (k, s, lek)) (<[cacheKey k cp s := next]> (cache w))).
    assert (Hw1 : ∀ key, key ≠ cacheKey k cp s → cache w1 !! key = cache w !! key).
    { intros key Hne. cbn. now rewrite lookup_insert_ne. }
    assert (Hkeep : ∀ key, is_Some (cache w !! key) → is_Some (cache w1 !! key)).
    { intros key Hsome. cbn. destruct (decide (cacheKey k cp s = key)) as [->|Hne].
      - rewrite lookup_insert_eq. eauto.
      - now rewrite lookup_insert_ne. }
    destruct (negb (present next) || (cp =? page)).
    + cbn [snd]. split; [reflexivity|]. split; [exact Hup|]. split; [exact Hone|].
      split; [|exact Hkeep]. intros key Hkey. apply Hw1, Hkey. lia.
    + destruct (IH k page s (cp + 1) its (key_of next) w1)
        as (Ht & Hu & (new & Hcalls & Hlen & Hall) & Hframe & Hsome).
      split; [now rewrite Ht|]. split; [now rewrite Hu|]. split; [|split].
      * exists ((k, s, lek) :: new). rewrite Hcalls. cbn [calls w1 with_cache log_call].
        rewrite <- app_assoc. split; [reflexivity|]. split; [cbn; lia|].
        constructor; [reflexivity | exact Hall].
      * intros key Hkey. rewrite Hframe; [apply Hw1, Hkey; lia|].
        intros p Hp. apply Hkey. lia.
      * intros key Hk. apply Hsome, Hkeep, Hk.
Qed.

(** One turn of the [for] loop of the prefetch leaves the same kind of
    trace on the keys of pages [currentPage + i .. currentPage + i + n - 1]. *)
Lemma prefetch_loop_frame n : ∀ k page s i lek w,
  let w' := (prefetch_loop n k page s i lek w).2 in
  table w' = table w
  ∧ cache_up w' = cache_up w
  ∧ (∀ key, (∀ j, i ≤ j < i + Z.of_nat n → key ≠ cacheKey k (page + j) s) →
            cache w' !! key = cache w !! key)
  ∧ (∀ key, is_Some (cache w !! key) → is_Some (cache w' !! key)).
Proof.
  induction n as [|n IH]; intros k page s i lek w; [cbn; auto|].
  cbv zeta. destruct lek as [c|]; [|rewrite prefetch_loop_done; cbn; auto].
  rewrite prefetch_loop_turn.
  destruct (query (table w) k s (Some c)) as [[its next]|]; [|cbn; auto].
  destruct (cache_up w) eqn:Hup; [|cbn; auto].
  cbn [snd].
  set (w1 := with_cache (log_call w (k, s, Some c))
                        (<[cacheKey k (page + i) s := next]> (cache w))).
  destruct (IH k page s (i + 1) next w1) as (Ht & Hu & Hframe & Hsome).
  repeat split.
  - now rewrite Ht.
  - now rewrite Hu.
  - intros key Hkey. rewrite Hframe.
    + cbn. rewrite lookup_insert_ne; [reflexivity|]. intros Heq. apply (Hkey i); [lia | now symmetry].
    + intros j Hj. apply Hkey. lia.
  - intros key Hk. apply Hsome. cbn.
    destruct (decide (cacheKey k (page + i) s = key)) as [->|Hne].
    + rewrite lookup_insert_eq. eauto.
    + now rewrite lookup_insert_ne.
Qed.

End Frames.

(** ** Further properties of the read path, for every store *)

Section ReadProperties.
Context `{Store}.

Lemma page_start_cold k page s w :
  cache_up w = true →
  (page = 1 ∨ cache w !! cacheKey k (page - 1) s = None) →
  (if 1 <? page then cache_get (cacheKey k (page - 1) s) else ret KeyUndefined) w
  = (Ok (key_of None), w).
Proof.
  intros Hup Hcold. destruct (1 <? page) eqn:Hlt; [|reflexivity].
  destruct Hcold as [-> | Hmiss]; [discriminate Hlt | now apply cache_get_miss].
Qed.

(** The start of a read leaves the world as it is. *)
Lemma page_start_world k page s w :
  ((if 1 <? page then cache_get (cacheKey k (page - 1) s) else ret KeyUndefined) w).2
  = w.
Proof.
  destruct (1 <? page); [|reflexivity]. unfold cache_get. now destruct (cache_up w).
Qed.

Lemma read_world k page s w :
  (getCustomerPageItems k page s w).2 = w
  ∨ ∃ lek, (getCustomerPageItems k page s w).2
           = (page_loop (Z.to_nat page) k page s 1 [] lek w).2.
Proof.
  unfold getCustomerPageItems, bind.
  pose proof (page_start_world k page s w) as Hw.
  destruct ((if 1 <? page then cache_get (cacheKey k (page - 1) s)
             else ret KeyUndefined) w)
    as [[lek|e] w0]; cbn in Hw; subst w0; [right; now exists lek | now left].
Qed.

(** X2.  A request that finds no entry for the page before the requested
    one (or asks for page 1) is answered from the cache-free replay: the
    replayed items with [hasNextPage] telling whether the replay returned a
    next key, or 500 when a query of the replay fails. *)
Theorem cold_request_answers_replay req w :
  let k := JStr (params_customerId req) in
  let s := or_default (query_limit req) 10 in
  let page := or_default (query_page req) 1 in
  cache_up w = true →
  1 ≤ page →
  (page = 1 ∨ cache w !! cacheKey k (page - 1) s = None) →
  (get_orders req w).1.1 =
  match replay (table w) k s page with
  | Some (items, next) =>
      Json200 {| orders := items; customerId := k; currentPage := page;
                 itemsPerPage := s; hasNextPage := present next;
                 totalItems := length items |}
  | None => Error500 StoreError
  end.
Proof.
  intros k s page Hup Hpage Hcold.
  pose proof (cold_read_is_replay k page s w Hup Hpage Hcold) as Hread.
  unfold get_orders. fold k s page.
  destruct (getCustomerPageItems k page s w) as [[[its lek]|e] w'];
    destruct (replay (table w) k s page) as [[items next]|]; cbn in Hread;
    try discriminate Hread.
  - injection Hread as -> ->. now destruct next.
  - now injection Hread as ->.
Qed.

(** The queries of one read: at most [page] of them, all for the customer
    and the limit of the request. *)
Lemma read_calls k page s w :
  ∃ new,
    calls (getCustomerPageItems k page s w).2 = calls w ++ new
    ∧ Z.of_nat (length new) ≤ Z.max 0 page
    ∧ Forall (for_request k s) new.
Proof.
  destruct (read_world k page s w) as [-> | [lek ->]].
  - exists []. rewrite app_nil_r. split; [reflexivity|]. split; [cbn; lia | constructor].
  - destruct (page_loop_frame (Z.to_nat page) k page s 1 [] lek w)
      as (_ & _ & (new & Hcalls & Hlen & Hall) & _).
    exists new. split; [exact Hcalls|]. split; [lia | exact Hall].
Qed.

(** The pending part of a prefetch call sends at most
    [PREFETCH_PAGES - 1] further queries. *)
Lemma prefetch_resumed_calls k page s c w :
  ∃ rest,
    calls (prefetch_resumed k page s c w).2 = calls w ++ rest
    ∧ Z.of_nat (length rest) ≤ PREFETCH_PAGES - 1.
Proof.
  assert (Hnone : ∃ rest, calls w = calls w ++ rest
                          ∧ Z.of_nat (length rest) ≤ PREFETCH_PAGES - 1).
  { exists []. rewrite app_nil_r. split; [reflexivity | cbn; unfold PREFETCH_PAGES; lia]. }
  unfold prefetch_resumed.
  destruct (query (table w) k s (Some c)) as [r|]; [|exact Hnone].
  unfold bind at 1, cache_set. destruct (cache_up w); [|exact Hnone].
  rewrite bind_ret_world.
  destruct (prefetch_loop_calls (Z.to_nat (PREFETCH_PAGES - 1)) k page s 2 r.2
              (with_cache w (<[cacheKey k (page + 1) s := r.2]> (cache w))))
    as (rest & Hrest & Hlen & _).
  exists rest. split; [exact Hrest|]. unfold PREFETCH_PAGES in *. lia.
Qed.

(** The end of the process keeps the log of what was sent. *)
Lemma run_task_calls (m : M unit) w : calls (run_task (Some m) w) = calls (m w).2.
Proof. cbn [run_task]. now destruct (m w) as [[[]|e] w']. Qed.

(** X3.  One GET request sends at most [page] queries for the page itself;
    when the page has a next key, the first query of the prefetch has been
    handed to the store as well by the time the response is built, so at most
    [page + 1] queries precede the response and at most
    [PREFETCH_PAGES - 1] follow it: [page + PREFETCH_PAGES] in all.  Without
    a next key at most [page] queries precede the response and none
    follows. *)
Theorem request_query_bound req w :
  let page := or_default (query_page req) 1 in
  ∃ before after,
    calls (get_orders req w).2 = calls w ++ before
    ∧ calls (serve_get req w).2 = calls w ++ before ++ after
    ∧ Z.of_nat (length before) ≤ Z.max 0 page + 1
    ∧ Z.of_nat (length after) ≤ PREFETCH_PAGES - 1
    ∧ (hasNextPage_of (get_orders req w).1.1 = false →
       Z.of_nat (length before) ≤ Z.max 0 page ∧ after = []).
Proof.
  intros page.
  set (k := JStr (params_customerId req)). set (s := or_default (query_limit req) 10).
  destruct (read_calls k page s w) as (new & Hcalls & Hlen & _).
  unfold serve_get, get_orders. fold k s page.
  destruct (getCustomerPageItems k page s w) as [[[its [c|]]|e] w1];
    cbn [snd] in Hcalls; cbn [prefetch_called fst snd present hasNextPage_of hasNextPage].
  - destruct (prefetch_resumed_calls k page s c (log_call w1 (k, s, Some c)))
      as (rest & Hrest & Hrlen).
    exists (new ++ [(k, s, Some c)]), rest.
    rewrite run_task_calls, Hrest. cbn [calls log_call]. rewrite Hcalls.
    rewrite length_app. cbn [length].
    split; [now rewrite app_assoc|]. split; [now rewrite !app_assoc|].
    split; [lia|]. split; [exact Hrlen | discriminate].
  - exists new, []. cbn [run_task]. rewrite app_nil_r.
    split; [exact Hcalls|]. split; [exact Hcalls|]. unfold PREFETCH_PAGES. cbn [length].
    split; [lia|]. split; [lia|]. intros _. split; [exact Hlen | reflexivity].
  - exists new, []. cbn [run_task]. rewrite app_nil_r.
    split; [exact Hcalls|]. split; [exact Hcalls|]. unfold PREFETCH_PAGES. cbn [length].
    split; [lia|]. split; [lia|]. intros _. split; [exact Hlen | reflexivity].
Qed.

End ReadProperties.

(** ** What the cache holds after a read and after a prefetch *)

Section CacheProperties.
Context `{Store}.

(** X4.  A read leaves the table alone, removes no cache entry, and changes
    no entry of another customer, of another limit, or of a page outside
    [1 .. page]. *)
Theorem read_touches_own_pages_only k page s w :
  let w' := (getCustomerPageItems k page s w).2 in
  table w' = table w
  ∧ cache_up w' = cache_up w
  ∧ (∀ k' n' s',
       js_to_string k' ≠ js_to_string k ∨ s' ≠ s ∨ n' < 1 ∨ page < n' →
       cache w' !! cacheKey k' n' s' = cache w !! cacheKey k' n' s')
  ∧ (∀ key, is_Some (cache w !! key) → is_Some (cache w' !! key)).
Proof.
  cbv zeta. destruct (read_world k page s w) as [-> | [lek ->]]; [auto|].
  destruct (page_loop_frame (Z.to_nat page) k page s 1 [] lek w)
    as (Ht & Hu & _ & Hframe & Hsome).
  split; [exact Ht|]. split; [exact Hu|]. split; [|exact Hsome].
  intros k' n' s' Hother. apply Hframe. intros p Hp Heq.
  apply cacheKey_eq_inv in Heq as (Hk & Hn & Hs).
  destruct Hother as [?|[?|[?|?]]]; [congruence | congruence | lia | lia].
Qed.

(** The cursor of the [L]-th page walked is in the cache when the loop has
    ended, however far the loop went on. *)
Lemma page_loop_caches L : ∀ n k page s cp items lek w its c,
  cache_up w = true →
  (1 ≤ L ≤ n)%nat →
  cp + Z.of_nat L - 1 ≤ page →
  chain_page (table w) k s lek L = Some (its, c) →
  cache (page_loop n k page s cp items (key_of lek) w).2
    !! cacheKey k (cp + Z.of_nat L - 1) s
  = Some c.
Proof.
  induction L as [|L IH]; intros n k page s cp items lek w its c Hup HL Hcp Hchain; [lia|].
  destruct n as [|n]; [lia|].
  rewrite page_loop_turn by exact Hup. cbn [chain_page] in Hchain.
  destruct (query (table w) k s lek) as [[its1 next]|]; [|discriminate Hchain].
  cbn [fst snd].
  set (w1 := with_cache (log_call w (k, s, lek)) (<[cacheKey k cp s := next]> (cache w))).
  destruct L as [|L].
  - injection Hchain as -> ->.
    replace (cp + Z.of_nat 1 - 1) with cp by lia.
    assert (Hw1 : cache w1 !! cacheKey k cp s = Some c) by apply lookup_insert_eq.
    destruct (negb (present c) || (cp =? page)); [exact Hw1|].
    destruct (page_loop_frame n k page s (cp + 1) its (key_of c) w1)
      as (_ & _ & _ & Hframe & _).
    rewrite Hframe; [exact Hw1|]. intros p Hp. apply cacheKey_page_ne. lia.
  - destruct next as [c'|]; [|discriminate Hchain].
    cbn [present negb orb].
    replace (cp =? page) with false by (symmetry; apply Z.eqb_neq; lia).
    replace (cp + Z.of_nat (S (S L)) - 1) with (cp + 1 + Z.of_nat (S L) - 1) by lia.
    apply IH with (its := its); [exact Hup | lia | lia | exact Hchain].
Qed.

(** X5.  After a read that found no entry for the previous page, the cache
    holds, for every page [L] of the walk up to the requested one, the
    next key that page [L] returned, also when a later query of the walk
    failed. *)
Theorem cold_read_caches_chain k page s w (L : nat) its c :
  cache_up w = true →
  (page = 1 ∨ cache w !! cacheKey k (page - 1) s = None) →
  (1 ≤ L)%nat →
  Z.of_nat L ≤ page →
  chain_page (table w) k s None L = Some (its, c) →
  cache (getCustomerPageItems k page s w).2 !! cacheKey k (Z.of_nat L) s = Some c.
Proof.
  intros Hup Hcold HL Hpage Hchain. unfold getCustomerPageItems, bind.
  rewrite page_start_cold by assumption.
  replace (Z.of_nat L) with (1 + Z.of_nat L - 1) by lia.
  apply (page_loop_caches L (Z.to_nat page) k page s 1 [] None w its c);
    [exact Hup | lia | lia | exact Hchain].
Qed.

Lemma prefetch_loop_caches L : ∀ n k page s i c0 w its c,
  cache_up w = true →
  (1 ≤ L ≤ n)%nat →
  chain_page (table w) k s (Some c0) L = Some (its, c) →
  cache (prefetch_loop n k page s i (Some c0) w).2
    !! cacheKey k (page + (i + Z.of_nat L - 1)) s = Some c.
Proof.
  induction L as [|L IH]; intros n k page s i c0 w its c Hup HL Hchain; [lia|].
  destruct n as [|n]; [lia|].
  rewrite prefetch_loop_turn, Hup. cbn [chain_page] in Hchain.
  destruct (query (table w) k s (Some c0)) as [[its1 next]|]; [|discriminate Hchain].
  cbn [fst snd].
  set (w1 := with_cache (log_call w (k, s, Some c0))
                        (<[cacheKey k (page + i) s := next]> (cache w))).
  destruct L as [|L].
  - injection Hchain as -> ->.
    replace (i + Z.of_nat 1 - 1) with i by lia.
    destruct (prefetch_loop_frame n k page s (i + 1) c w1) as (_ & _ & Hframe & _).
    rewrite Hframe; [apply lookup_insert_eq|].
    intros j Hj. apply cacheKey_page_ne. lia.
  - destruct next as [c'|]; [|discriminate Hchain].
    replace (i + Z.of_nat (S (S L)) - 1) with (i + 1 + Z.of_nat (S L) - 1) by lia.
    apply IH with (its := its); [exact Hup | lia | exact Hchain].
Qed.

(** X6.  A prefetch started after page [page] with the next key [c0] stores,
    for each of the up to [PREFETCH_PAGES] pages it can walk from [c0], the
    next key that page returned under the page number that follows: the
    [L]-th page walked goes under [page + L]. *)
Theorem prefetch_caches_chain k page s c0 w (L : nat) its c :
  cache_up w = true →
  (1 ≤ L)%nat →
  Z.of_nat L ≤ PREFETCH_PAGES →
  chain_page (table w) k s (Some c0) L = Some (its, c) →
  cache (prefetchNextPages k page s (Some c0) w).2 !! cacheKey k (page + Z.of_nat L) s
  = Some c.
Proof.
  intros Hup HL Hbound Hchain. unfold prefetchNextPages. rewrite bind_ret_world.
  replace (page + Z.of_nat L) with (page + (1 + Z.of_nat L - 1)) by lia.
  apply prefetch_loop_caches with (its := its);
    [exact Hup | unfold PREFETCH_PAGES in *; lia | exact Hchain].
Qed.

(** X7.  A prefetch leaves the table alone, removes no cache entry, and
    changes no entry of another customer, of another limit, or of a page
    outside [page + 1 .. page + PREFETCH_PAGES]. *)
Theorem prefetch_touches_next_pages_only k page s startKey w :
  let w' := (prefetchNextPages k page s startKey w).2 in
  table w' = table w
  ∧ cache_up w' = cache_up w
  ∧ (∀ k' n' s',
       js_to_string k' ≠ js_to_string k ∨ s' ≠ s
       ∨ n' ≤ page ∨ page + PREFETCH_PAGES < n' →
       cache w' !! cacheKey k' n' s' = cache w !! cacheKey k' n' s')
  ∧ (∀ key, is_Some (cache w !! key) → is_Some (cache w' !! key)).
Proof.
  cbv zeta. unfold prefetchNextPages. rewrite bind_ret_world.
  destruct (prefetch_loop_frame (Z.to_nat PREFETCH_PAGES) k page s 1 startKey w)
    as (Ht & Hu & Hframe & Hsome).
  split; [exact Ht|]. split; [exact Hu|]. split; [|exact Hsome].
  intros k' n' s' Hother. apply Hframe. intros j Hj Heq.
  apply cacheKey_eq_inv in Heq as (Hk & Hn & Hs). unfold PREFETCH_PAGES in *.
  destruct Hother as [?|[?|[?|?]]]; [congruence | congruence | lia | lia].
Qed.

(** X8.  A negative page number is answered with an empty page and no next
    page; no query is sent, nothing is cached and no prefetch is started. *)
Theorem page_below_one_is_empty req w p :
  query_page req = Some p →
  p < 0 →
  get_orders req w =
    ((Json200 {| orders := []; customerId := JStr (params_customerId req);
                 currentPage := p; itemsPerPage := or_default (query_limit req) 10;
                 hasNextPage := false; totalItems := 0 |}, None), w).
Proof.
  intros Hq Hp. unfold get_orders. rewrite Hq. cbn [or_default].
  replace (p =? 0) with false by (symmetry; apply Z.eqb_neq; lia).
  unfold getCustomerPageItems, bind.
  replace (1 <? p) with false by (symmetry; apply Z.ltb_ge; lia).
  replace (Z.to_nat p) with O by lia. reflexivity.
Qed.

(** X10.  A read that finds the cursor of the previous page and whose first
    query returns no next key sends that one query and returns its items;
    it records the end of the partition under page 1, not under the
    requested page. *)
Theorem warm_read_of_last_page k page s w c items :
  cache_up w = true →
  1 < page →
  mjoin (cache w !! cacheKey k (page - 1) s) = Some c →
  query (table w) k s (Some c) = Some (items, None) →
  getCustomerPageItems k page s w =
    (Ok (items, None),
     with_cache (log_call w (k, s, Some c)) (<[cacheKey k 1 s := None]> (cache w))).
Proof.
  intros Hup Hpage Hhit Hq. unfold getCustomerPageItems, bind.
  replace (1 <? page) with true by (symmetry; apply Z.ltb_lt; lia).
  rewrite (cache_get_object _ c w Hup Hhit).
  replace (Z.to_nat page) with (S (Z.to_nat (page - 1))) by lia.
  rewrite page_loop_turn by exact Hup. now rewrite Hq.
Qed.

End CacheProperties.

(** ** Invalidation and writes followed by reads, for every store *)

Section Composition.
Context `{Store}.

(** Whatever the state of the cache, invalidation sends no query, leaves
    the table alone, and leaves each entry either removed or as it was. *)
Lemma invalidate_shrinks k w :
  let w' := (invalidateCustomerCache k w).2 in
  table w' = table w ∧ calls w' = calls w ∧ cache_up w' = cache_up w
  ∧ ∀ key, cache w' !! key = None ∨ cache w' !! key = cache w !! key.
Proof.
  cbv zeta. destruct (cache_up w) eqn:Hup.
  - destruct (invalidate_lookup k w Hup) as (w' & -> & Ht & Hc & Hu & Hlook).
    cbn [snd]. repeat split; auto. intros key. rewrite Hlook.
    destruct (startsWith key (cachePrefix k)); auto.
  - rewrite invalidate_down by exact Hup. cbn [snd]. auto.
Qed.

(** X11.  After the cache of a customer has been invalidated, a read of any
    of the customer's pages returns the cache-free replay. *)
Theorem read_after_invalidation_replays k page s w :
  cache_up w = true →
  1 ≤ page →
  (getCustomerPageItems k page s (invalidateCustomerCache k w).2).1
  = as_outcome (replay (table w) k s page).
Proof.
  intros Hup Hpage.
  destruct (invalidate_lookup k w Hup) as (w' & -> & Ht & _ & Hu & Hlook).
  cbn [snd]. rewrite <- Ht. apply cold_read_is_replay; [exact Hu | exact Hpage|].
  right. now rewrite Hlook, own_key_startsWith.
Qed.

(** X12.  After a write that was answered 201, the table is the one the put
    produced, and a read of any page of the written customer returns the
    cache-free replay on that table, whatever the cache held before. *)
Theorem read_after_write_replays body w item w' page s :
  cache_up w = true →
  post_orders body w = (Created201 item, w') →
  1 ≤ page →
  put_item (table w) item = Some (table w')
  ∧ (getCustomerPageItems (CustomerID item) page s w').1
    = as_outcome (replay (table w') (CustomerID item) s page).
Proof.
  intros Hup Hpost Hpage. unfold post_orders in Hpost.
  destruct (_ || _ || _ || _); [discriminate Hpost|].
  unfold bind, docClient_put in Hpost.
  set (it := {| CustomerID := default JNull (body_CustomerID body);
                OrderNumber := default JNull (body_OrderNumber body);
                OrderValue := default JNull (body_OrderValue body);
                OrderDate := default JNull (body_OrderDate body) |}) in *.
  destruct (put_item (table w) it) as [t|] eqn:Hput; [|discriminate Hpost].
  destruct (invalidate_lookup (CustomerID it) (with_table w t) Hup)
    as (w1 & Hrun & Ht & _ & Hu & Hlook).
  rewrite Hrun in Hpost. injection Hpost as <- <-.
  split; [now rewrite Hput, Ht|].
  apply cold_read_is_replay; [exact Hu | exact Hpage|].
  right. now rewrite Hlook, own_key_startsWith.
Qed.

(** X13.  Whatever its answer, the write endpoint sends no query and adds
    or alters no cache entry: each entry is either removed or as it was. *)
Theorem write_only_removes_entries body w :
  let w' := (post_orders body w).2 in
  calls w' = calls w
  ∧ cache_up w' = cache_up w
  ∧ ∀ key, cache w' !! key = None ∨ cache w' !! key = cache w !! key.
Proof.
  cbv zeta. unfold post_orders.
  destruct (_ || _ || _ || _); [cbn; auto|].
  unfold bind, docClient_put.
  destruct (put_item (table w) _) as [t|]; [|cbn; auto].
  match goal with
  | |- context [invalidateCustomerCache ?c ?w1] =>
      pose proof (invalidate_shrinks c w1) as (_ & Hc & Hu & Hlook);
      destruct (invalidateCustomerCache c w1) as [[[]|e] w2]
  end; cbn [snd] in *; auto.
Qed.

(** X14.  Invalidating a customer a second time changes nothing. *)
Theorem invalidation_is_idempotent k w :
  cache_up w = true →
  invalidateCustomerCache k (invalidateCustomerCache k w).2
  = (Ok tt, (invalidateCustomerCache k w).2).
Proof.
  intros Hup.
  destruct (invalidate_lookup k w Hup) as (w1 & -> & _ & _ & Hu1 & Hlook1).
  cbn [snd]. unfold invalidateCustomerCache, bind, cache_keys, cache_del.
  rewrite Hu1. cbv beta iota. rewrite Hu1. f_equal.
  destruct w1 as [m1 u1 t1 c1]. unfold with_cache. cbn [cache cache_up table calls] in *.
  f_equal. apply map_eq. intros key. apply lookup_foldr_delete_not_elem_of.
  rewrite customer_keys_elem. intros [Hs [v Hv]]. rewrite Hlook1, Hs in Hv. discriminate.
Qed.

End Composition.

(** ** The further statements at concrete inputs *)

Module MoreWitnesses.
Import ListStore.

(** Pages 1 and 2 of the scenario have different keys. *)
Lemma cacheKey_inj_witness : cacheKey C1 1 10 ≠ cacheKey C1 2 10.
Proof.
  intros Heq. apply (proj1 (cacheKey_inj C1 1 10 C1 2 10)) in Heq as (_ & Hn & _).
  discriminate Hn.
Defined.

(** Page 2 after page 1 of the scenario walks on from cursor 10. *)
Lemma warm_read_walks_on_witness :
  cache_up after_page1.2 = true
  ∧ 1 < 2
  ∧ mjoin (cache after_page1.2 !! cacheKey C1 (2 - 1) 10) = Some (JNum 10)
  ∧ (getCustomerPageItems C1 2 10 after_page1.2).1
    = as_outcome (replay_from (table after_page1.2) C1 10 (Z.to_nat (2 - 1))
                    (Some (JNum 10))).
Proof.
  assert (H1 : cache_up after_page1.2 = true) by (vm_compute; reflexivity).
  assert (H2 : 1 < 2) by lia.
  assert (H3 : mjoin (cache after_page1.2 !! cacheKey C1 (2 - 1) 10) = Some (JNum 10))
    by (vm_compute; reflexivity).
  repeat (split; [assumption|]).
  exact (warm_read_walks_on (H := list_store) C1 2 10 after_page1.2 (JNum 10) H1 H2 H3).
Defined.

(** Page 2 of the scenario on a fresh process. *)
Lemma cold_request_witness :
  cache_up started = true
  ∧ 1 ≤ 2
  ∧ (get_orders (page_request "C1" 2 10) started).1.1 =
    match replay (table started) C1 10 2 with
    | Some (items, next) =>
        Json200 {| orders := items; customerId := C1; currentPage := 2;
                   itemsPerPage := 10; hasNextPage := present next;
                   totalItems := length items |}
    | None => Error500 StoreError
    end.
Proof.
  assert (H1 : cache_up started = true) by reflexivity.
  assert (H2 : 1 ≤ 2) by lia.
  repeat (split; [assumption|]).
  apply (cold_request_answers_replay (H := list_store) (page_request "C1" 2 10) started);
    [reflexivity | vm_compute; discriminate | right; vm_compute; reflexivity].
Defined.

(** A read for customer [A] leaves the entry of customer [B] alone. *)
Lemma read_frame_witness :
  JStr "B" ≠ JStr "A"
  ∧ cache (getCustomerPageItems (JStr "A") 2 10 two_customers).2
      !! cacheKey (JStr "B") 1 10
    = cache two_customers !! cacheKey (JStr "B") 1 10.
Proof.
  split; [discriminate|].
  destruct (read_touches_own_pages_only (H := list_store) (JStr "A") 2 10 two_customers)
    as (_ & _ & Hframe & _).
  apply Hframe. left. discriminate.
Defined.

(** Page 3 of the scenario on a fresh process leaves cursor 20 under page 2. *)
Lemma cold_read_caches_witness :
  cache_up started = true
  ∧ (1 ≤ 2)%nat
  ∧ Z.of_nat 2 ≤ 3
  ∧ chain_page (table started) C1 10 None 2 = Some (numbered "C1" 11 10, Some (JNum 20))
  ∧ cache (getCustomerPageItems C1 3 10 started).2 !! cacheKey C1 (Z.of_nat 2) 10
    = Some (Some (JNum 20)).
Proof.
  assert (H1 : cache_up started = true) by reflexivity.
  assert (H2 : (1 ≤ 2)%nat) by lia.
  assert (H3 : Z.of_nat 2 ≤ 3) by lia.
  assert (H4 : chain_page (table started) C1 10 None 2
               = Some (numbered "C1" 11 10, Some (JNum 20)))
    by (vm_compute; reflexivity).
  repeat (split; [assumption|]).
  apply (cold_read_caches_chain (H := list_store) C1 3 10 started 2
           (numbered "C1" 11 10) (Some (JNum 20)) H1);
    [right; vm_compute; reflexivity | exact H2 | exact H3 | exact H4].
Defined.

(** The prefetch after page 1 of the scenario records the end of the
    partition under page 3. *)
Lemma prefetch_caches_witness :
  cache_up started = true
  ∧ (1 ≤ 2)%nat
  ∧ Z.of_nat 2 ≤ PREFETCH_PAGES
  ∧ chain_page (table started) C1 10 (Some (JNum 10)) 2 = Some (numbered "C1" 21 5, None)
  ∧ cache (prefetchNextPages C1 1 10 (Some (JNum 10)) started).2
      !! cacheKey C1 (1 + Z.of_nat 2) 10 = Some None.
Proof.
  assert (H1 : cache_up started = true) by reflexivity.
  assert (H2 : (1 ≤ 2)%nat) by lia.
  assert (H3 : Z.of_nat 2 ≤ PREFETCH_PAGES) by (unfold PREFETCH_PAGES; lia).
  assert (H4 : chain_page (table started) C1 10 (Some (JNum 10)) 2
               = Some (numbered "C1" 21 5, None))
    by (vm_compute; reflexivity).
  repeat (split; [assumption|]).
  exact (prefetch_caches_chain (H := list_store) C1 1 10 (JNum 10) started 2
           (numbered "C1" 21 5) None H1 H2 H3 H4).
Defined.

(** A prefetch for customer [A] leaves the entry of customer [B] alone. *)
Lemma prefetch_frame_witness :
  JStr "B" ≠ JStr "A"
  ∧ cache (prefetchNextPages (JStr "A") 1 10 (Some (JNum 10)) two_customers).2
      !! cacheKey (JStr "B") 1 10
    = cache two_customers !! cacheKey (JStr "B") 1 10.
Proof.
  split; [discriminate|].
  destruct (prefetch_touches_next_pages_only (H := list_store) (JStr "A") 1 10
              (Some (JNum 10)) two_customers) as (_ & _ & Hframe & _).
  apply Hframe. left. discriminate.
Defined.

(** Page -3 of the scenario. *)
Lemma page_below_one_witness :
  query_page (page_request "C1" (-3) 10) = Some (-3)
  ∧ -3 < 0
  ∧ get_orders (page_request "C1" (-3) 10) started =
      ((Json200 {| orders := []; customerId := C1; currentPage := -3;
                   itemsPerPage := 10; hasNextPage := false; totalItems := 0 |},
        None), started).
Proof.
  assert (H1 : query_page (page_request "C1" (-3) 10) = Some (-3)) by reflexivity.
  assert (H2 : -3 < 0) by lia.
  repeat (split; [assumption|]).
  exact (page_below_one_is_empty (H := list_store) (page_request "C1" (-3) 10)
           started (-3) H1 H2).
Defined.

(** Page 3 after page 1 of the scenario: one query, from cursor 20. *)
Lemma warm_last_page_witness :
  cache_up after_page1.2 = true
  ∧ 1 < 3
  ∧ mjoin (cache after_page1.2 !! cacheKey C1 (3 - 1) 10) = Some (JNum 20)
  ∧ query (table after_page1.2) C1 10 (Some (JNum 20)) = Some (numbered "C1" 21 5, None)
  ∧ (getCustomerPageItems C1 3 10 after_page1.2).1 = Ok (numbered "C1" 21 5, None).
Proof.
  assert (H1 : cache_up after_page1.2 = true) by (vm_compute; reflexivity).
  assert (H2 : 1 < 3) by lia.
  assert (H3 : mjoin (cache after_page1.2 !! cacheKey C1 (3 - 1) 10) = Some (JNum 20))
    by (vm_compute; reflexivity).
  assert (H4 : query (table after_page1.2) C1 10 (Some (JNum 20))
               = Some (numbered "C1" 21 5, None))
    by (vm_compute; reflexivity).
  repeat (split; [assumption|]).
  now rewrite (warm_read_of_last_page (H := list_store) C1 3 10 after_page1.2 (JNum 20)
                 (numbered "C1" 21 5) H1 H2 H3 H4).
Defined.

(** Customer [A] read after its invalidation. *)
Lemma read_after_invalidation_witness :
  cache_up two_customers = true
  ∧ 1 ≤ 2
  ∧ (getCustomerPageItems (JStr "A") 2 10
       (invalidateCustomerCache (JStr "A") two_customers).2).1
    = as_outcome (replay (table two_customers) (JStr "A") 10 2).
Proof.
  assert (H1 : cache_up two_customers = true) by reflexivity.
  assert (H2 : 1 ≤ 2) by lia.
  repeat (split; [assumption|]).
  exact (read_after_invalidation_replays (H := list_store) (JStr "A") 2 10
           two_customers H1 H2).
Defined.

(** Page 1 of customer C1 read after order 26 has been written. *)
Lemma read_after_write_witness :
  let item := {| CustomerID := JStr "C1"; OrderNumber := JNum 26;
                 OrderValue := JNum 250; OrderDate := JStr "2024-02-01" |} in
  let w' := (post_orders new_order after_page1.2).2 in
  cache_up after_page1.2 = true
  ∧ post_orders new_order after_page1.2 = (Created201 item, w')
  ∧ 1 ≤ 1
  ∧ (getCustomerPageItems C1 1 10 w').1
    = as_outcome (replay (table w') C1 10 1).
Proof.
  intros item w'.
  assert (H1 : cache_up after_page1.2 = true) by (vm_compute; reflexivity).
  assert (H2 : post_orders new_order after_page1.2 = (Created201 item, w'))
    by (vm_compute; reflexivity).
  assert (H3 : 1 ≤ 1) by lia.
  repeat (split; [assumption|]).
  exact (proj2 (read_after_write_replays (H := list_store) new_order after_page1.2
                  item w' 1 10 H1 H2 H3)).
Defined.

(** Customer [A] invalidated twice. *)
Lemma invalidation_idempotent_witness :
  cache_up two_customers = true
  ∧ invalidateCustomerCache (JStr "A") (invalidateCustomerCache (JStr "A") two_customers).2
    = (Ok tt, (invalidateCustomerCache (JStr "A") two_customers).2).
Proof.
  assert (H1 : cache_up two_customers = true) by reflexivity.
  split; [exact H1|].
  exact (invalidation_is_idempotent (H := list_store) (JStr "A") two_customers H1).
Defined.

End MoreWitnesses.
